(** * PCCoder dataset generation ([scripts/gen_programs.py])

    A shallow embedding of the program enumerator, the deduplication
    workers and the dataset-builder loop, followed by the properties
    proved about them. *)

From stdpp Require Import functions strings gmap list.

Local Open Scope Z_scope.

(** ** The DSL data model *)

(** Modelled from the spec: [dsl.types] is not among the sources.  A slot is
    a list of ints or a scalar int; lambdas carry a function type. *)
Inductive PrimitiveType := PInt | PList | PBool.

Inductive DslType :=
| TPrim (p : PrimitiveType)
| FunctionType (input : list PrimitiveType) (output : PrimitiveType).

Abbreviation INT := (TPrim PInt).
Abbreviation LIST := (TPrim PList).
Abbreviation BOOL := (TPrim PBool).

(** [function.input_type] is either one type or a tuple of types;
    [iterate_inputs] tells them apart with [isinstance]. *)
Inductive InputType :=
| Single (t : DslType)
| Tuple (ts : list DslType).

(** Modelled from the spec: a catalog entry ([dsl.impl]) exposes its typed
    argument slots, its result type and, for lambdas, its own type. *)
Record Function := {
  name : string;
  input_type : InputType;
  output_type : DslType;
  type : DslType
}.

(** An argument source: a variable index or an embedded lambda. *)
Inductive arg :=
| Var (i : nat)
| Lam (f : Function).

(** Modelled from the spec: [env.statement.Statement], a function reference
    plus an ordered tuple of argument sources, compared structurally. *)
Record Statement := {
  function : Function;
  args : list arg
}.

(** Modelled from the spec: [dsl.program.Program], an input-type signature
    and an ordered statement sequence, compared structurally. *)
Record Program := {
  input_types : list DslType;
  statements : list Statement
}.

Global Instance PrimitiveType_eq_dec : EqDecision PrimitiveType.
Proof. solve_decision. Defined.
Global Instance DslType_eq_dec : EqDecision DslType.
Proof. solve_decision. Defined.
Global Instance InputType_eq_dec : EqDecision InputType.
Proof. solve_decision. Defined.
Global Instance Function_eq_dec : EqDecision Function.
Proof. solve_decision. Defined.
Global Instance arg_eq_dec : EqDecision arg.
Proof. solve_decision. Defined.
Global Instance Statement_eq_dec : EqDecision Statement.
Proof. solve_decision. Defined.
Global Instance Program_eq_dec : EqDecision Program.
Proof. solve_decision. Defined.

(** [len(program)]: the number of statements. *)
Definition len (program : Program) : nat := length (statements program).

(** Modelled from the spec: [program.var_types], the inputs followed by one
    new variable per statement result. *)
Definition var_types (program : Program) : list DslType :=
  input_types program ++ ((λ s, output_type (function s)) <$> statements program).

Definition arg_index (a : arg) : option nat :=
  match a with
  | Var i => Some i
  | Lam _ => None
  end.

(** Modelled from the spec: [dsl.program.get_used_indices], the indices that
    occur among the arguments of the program's statements. *)
Definition get_used_indices (program : Program) : gset nat :=
  ⋃ ((λ s, list_to_set (omap arg_index (args s))) <$> statements program).

(** Modelled from the spec: [dsl.program.get_unused_indices], the inputs and
    intermediate results (every variable but the final result) that no
    statement consumes.  It is the set difference that [get_free_indices]
    below takes in the source, over the variables of the program as it is;
    a statement reads only variables that precede it ([well_scoped]), so
    consumed by a statement is consumed by a later one. *)
Definition get_unused_indices (program : Program) : gset nat :=
  set_seq 0 (length (var_types program) - 1)%nat ∖ get_used_indices program.

(** [get_free_indices(program, program_len)] *)
Definition get_free_indices (program : Program) (program_len : Z) : gset nat :=
  let used := get_used_indices program in
  let total : gset nat :=
    set_seq 0 (Z.to_nat (program_len + Z.of_nat (length (input_types program)))) in
  total ∖ used.

(** [get_input_type_combinations(num_inputs)]; [[LIST] * k] is empty for
    [k <= 0], as [replicate (Z.to_nat k)] is. *)
Definition get_input_type_combinations (num_inputs : Z) : list (list DslType) :=
  n ← seqZ 1 num_inputs;
  num_list ← seqZ 1 n;
  [replicate (Z.to_nat num_list) LIST ++ replicate (Z.to_nat (n - num_list)) INT].

(** [KNOWN_TRAIN_SIZES = {1: 47, 2: 2883}] *)
Definition KNOWN_TRAIN_SIZES : gmap Z Z := {[ 1 := 47; 2 := 2883 ]}.

(** The quota computed at the head of the per-length loop of [main]. *)
Definition quota (num_train num_test program_len : Z) : Z :=
  let num_programs := num_train + num_test in
  match KNOWN_TRAIN_SIZES !! program_len with
  | Some known => Z.min num_programs known
  | None => num_programs
  end.

(** ** The enumerator *)

(** [itertools.product] over the slots' candidate lists: the leftmost slot
    varies slowest. *)
Fixpoint product {A} (argslists : list (list A)) : list (list A) :=
  match argslists with
  | [] => [[]]
  | l :: rest => x ← l; r ← product rest; [x :: r]
  end.

(** [type_to_vars] is a [defaultdict(list)]: reading a missing key gives []. *)
Abbreviation TypeToVars := (DslType → list arg).

(** [iterate_inputs(function, type_to_vars)] *)
Definition iterate_inputs (function : Function) (type_to_vars : TypeToVars)
    : list (list arg) :=
  let input_types :=
    match input_type function with
    | Tuple ts => ts
    | Single t => [t]
    end in
  let argslists := type_to_vars <$> input_types in
  product argslists.

(** [arg in free_indxs]: a lambda is never a member of a set of indices. *)
Definition arg_in (a : arg) (s : gset nat) : bool :=
  match a with
  | Var i => bool_decide (i ∈ s)
  | Lam _ => false
  end.

(** [l.remove(x)]: drops the first occurrence.  It is only ever called on an
    element just read from [l], so the ValueError case does not arise and
    the list is returned as it is there. *)
Fixpoint remove_first {A} `{EqDecision A} (x : A) (l : list A) : list A :=
  match l with
  | [] => []
  | y :: l' => if decide (x = y) then l' else y :: remove_first x l'
  end.

(** Lines 90-92: [type_to_vars[typ].insert(0, i)] for each variable. *)
Definition index_vars (vts : list DslType) : TypeToVars :=
  foldl (λ (ttv : TypeToVars) '(i, typ), <[typ := Var i :: ttv typ]> ttv)
        (λ _, []) (imap (λ i typ, (i, typ)) vts).

(** Lines 97-100: [for var in l: if var in free: l.remove(var); l.insert(0, var)].
    The list is mutated while it is iterated, so the iteration is by
    position: [i] is the iterator's index and [k] bounds the remaining
    steps by the list's length, which the body keeps. *)
Fixpoint move_free_loop (k i : nat) (free_indxs : gset nat) (l : list arg) : list arg :=
  match k with
  | O => l
  | S k' =>
    match l !! i with
    | None => l
    | Some var =>
      let l' := if arg_in var free_indxs then var :: remove_first var l else l in
      move_free_loop k' (S i) free_indxs l'
    end
  end.

Definition move_free (free_indxs : gset nat) (l : list arg) : list arg :=
  move_free_loop (length l) 0 free_indxs l.

(** Lines 96-100: one pass per entry of [program.var_types]. *)
Definition reorder_free (free_indxs : gset nat) (vts : list DslType)
    (ttv : TypeToVars) : TypeToVars :=
  foldl (λ (ttv : TypeToVars) typ, <[typ := move_free free_indxs (ttv typ)]> ttv) ttv vts.

(** Lines 102-103: [type_to_vars[func.type].append(func)]. *)
Definition add_lambdas (LAMBDAS : list Function) (ttv : TypeToVars) : TypeToVars :=
  foldl (λ (ttv : TypeToVars) func, <[type func := ttv (type func) ++ [Lam func]]> ttv)
        ttv LAMBDAS.

(** Lines 90-103 together. *)
Definition build_type_to_vars (LAMBDAS : list Function) (program : Program)
    (program_len : Z) : TypeToVars :=
  let free_indxs := get_free_indices program program_len in
  add_lambdas LAMBDAS
    (reorder_free free_indxs (var_types program) (index_vars (var_types program))).

(** [x[i], x[j] = x[j], x[i]] *)
Definition swap {A} (i j : nat) (x : list A) : list A :=
  match x !! i, x !! j with
  | Some a, Some b => <[j := a]> (<[i := b]> x)
  | _, _ => x
  end.

(** [progress_counter] is a [multiprocessing.Value('i', 0)]: a C int. *)
Definition c_int (z : Z) : Z := (z + 2 ^ 31) mod 2 ^ 32 - 2 ^ 31.

(** What [helper] returns: [True], [False], or nothing (falling off the end). *)
Inductive helper_ret := RetTrue | RetFalse | RetNone.

Definition truthy (r : helper_ret) : bool :=
  match r with
  | RetTrue => true
  | _ => false
  end.

Section Enumerator.
(** The pseudo-random generator behind [random.shuffle]: [randbelow g n]
    draws a number and advances the generator; the draw is reduced into
    [0, n) as the library guarantees. *)
Context {R : Type} (randbelow : R → nat → nat * R).
(** The globals set by [init_gen_prog_worker], and the lambda library. *)
Context (num_programs program_len : Z) (LAMBDAS : list Function).

(** The state a worker process mutates: the list object [ALL_FUNCTIONS]
    (shuffled in place, and the very list [helper] iterates), the
    generator, and the shared progress counter. *)
Record state := {
  ALL_FUNCTIONS : list Function;
  rng : R;
  progress_counter : Z
}.

(** [random.shuffle(x)]: for i in reversed(range(1, len(x))), swap [x[i]]
    with [x[randbelow(i + 1)]]. *)
Fixpoint shuffle_from {A} (i : nat) (g : R) (x : list A) : list A * R :=
  match i with
  | O => (x, g)
  | S i' =>
    let '(r, g') := randbelow g (S i) in
    shuffle_from i' g' (swap i (r mod S i)%nat x)
  end.

Definition shuffle {A} (g : R) (x : list A) : list A * R :=
  shuffle_from (length x - 1)%nat g x.

Definition shuffle_functions (st : state) : state :=
  let '(fs, g) := shuffle (rng st) (ALL_FUNCTIONS st) in
  {| ALL_FUNCTIONS := fs; rng := g; progress_counter := progress_counter st |}.

(** [progress_counter.value += 1] *)
Definition count_program (st : state) : state :=
  {| ALL_FUNCTIONS := ALL_FUNCTIONS st; rng := rng st;
     progress_counter := c_int (progress_counter st + 1) |}.

(** The result of a recursive call: what it returned, the result set and
    the state it left. *)
Definition helper_result : Type := helper_ret * list Program * state.

(** Lines 107-117, the loop over [iterate_inputs(function, type_to_vars)].
    [rec] is the recursive call; the boolean tells whether the loop left
    through [return True]. *)
Fixpoint for_args (rec : Program → list Program → state → option helper_result)
    (function : Function) (free_indxs : gset nat) (used : list Statement)
    (program : Program) (argss : list (list arg))
    (programs : list Program) (st : state) : option (bool * list Program * state) :=
  match argss with
  | [] => Some (false, programs, st)
  | args :: rest =>
    if bool_decide (length (filter (λ a, arg_in a free_indxs = true) args) = 0%nat) then
      for_args rec function free_indxs used program rest programs st
    else
      let statement := {| function := function; args := args |} in
      if bool_decide (statement ∈ used) then
        for_args rec function free_indxs used program rest programs st
      else
        let next_program :=
          {| input_types := input_types program;
             statements := statements program ++ [statement] |} in
        match rec next_program programs st with
        | None => None
        | Some (r, programs', st') =>
          if truthy r then Some (true, programs', st')
          else for_args rec function free_indxs used program rest programs' st'
        end
    end.

(** Line 106, [for function in functions]: the list is the one the
    recursive calls shuffle, so each step reads position [i] of its
    current contents.  [k] is the list's length, which shuffling keeps. *)
Fixpoint for_functions (rec : Program → list Program → state → option helper_result)
    (type_to_vars : TypeToVars) (free_indxs : gset nat) (used : list Statement)
    (program : Program) (k i : nat)
    (programs : list Program) (st : state) : option (bool * list Program * state) :=
  match k with
  | O => Some (false, programs, st)
  | S k' =>
    match ALL_FUNCTIONS st !! i with
    | None => Some (false, programs, st)
    | Some function =>
      match for_args rec function free_indxs used program
              (iterate_inputs function type_to_vars) programs st with
      | None => None
      | Some (true, programs', st') => Some (true, programs', st')
      | Some (false, programs', st') =>
        for_functions rec type_to_vars free_indxs used program k' (S i) programs' st'
      end
    end
  end.

(** [helper(functions, program, programs)], lines 76-117.  [d] bounds the
    recursion depth; [None] means the bound was too small. *)
Fixpoint helper (d : nat) (program : Program) (programs : list Program)
    (st : state) : option helper_result :=
  match d with
  | O => None
  | S d' =>
    let st := shuffle_functions st in
    if bool_decide (progress_counter st >= num_programs) then
      Some (RetTrue, programs, st)
    else if bool_decide (Z.of_nat (len program) >= program_len) then
      if bool_decide (get_unused_indices program ≠ ∅) || bool_decide (program ∈ programs) then
        Some (RetFalse, programs, st)
      else
        Some (RetTrue, program :: programs, count_program st)
    else
      let type_to_vars := build_type_to_vars LAMBDAS program program_len in
      let free_indxs := get_free_indices program program_len in
      let used := statements program in
      match for_functions (helper d') type_to_vars free_indxs used program
              (length (ALL_FUNCTIONS st)) 0 programs st with
      | None => None
      | Some (true, programs', st') => Some (RetTrue, programs', st')
      | Some (false, programs', st') => Some (RetNone, programs', st')
      end
  end.

(** Lines 119-123: the restart loop.  [fuel] bounds the number of
    iterations of [while]; [None] means the loop was still running. *)
Fixpoint restart_loop (fuel : nat) (program_base : Program) (res : list Program)
    (st : state) : option (list Program * state) :=
  match fuel with
  | O => None
  | S fuel' =>
    if bool_decide (progress_counter st < num_programs) then
      match helper (S (Z.to_nat program_len)) program_base res st with
      | None => None
      | Some (_, res', st') => restart_loop fuel' program_base res' st'
      end
    else Some (res, st)
  end.

(** [gen_program_worker(input_types)] *)
Definition gen_program_worker (fuel : nat) (input_types : list DslType)
    (st : state) : option (list Program * state) :=
  let program_base := {| input_types := input_types; statements := [] |} in
  restart_loop fuel program_base [] st.
End Enumerator.

Arguments state : clear implicits.

(** ** Python dictionaries

    A [dict] keeps its keys in insertion order, and [list(d.keys())] and
    the slicing in [main] depend on that order: an association list with
    at most one entry per key. *)
Section Dict.
Context {K V : Type} `{EqDecision K}.

Definition dict_keys (d : list (K * V)) : list K := d.*1.

(** [d[k]]; [None] is KeyError. *)
Fixpoint dict_get (k : K) (d : list (K * V)) : option V :=
  match d with
  | [] => None
  | (k', v) :: d' => if decide (k = k') then Some v else dict_get k d'
  end.

(** [d[k] = v]: the value is replaced where the key is, or the entry is
    appended. *)
Fixpoint dict_set (k : K) (v : V) (d : list (K * V)) : list (K * V) :=
  match d with
  | [] => [(k, v)]
  | (k', v') :: d' =>
    if decide (k = k') then (k', v) :: d' else (k', v') :: dict_set k v d'
  end.

(** [del d[k]], called on a key just looked up. *)
Fixpoint dict_del (k : K) (d : list (K * V)) : list (K * V) :=
  match d with
  | [] => []
  | (k', v) :: d' => if decide (k = k') then d' else (k', v) :: dict_del k d'
  end.

(** [d.update(d2)] *)
Definition dict_update (d d2 : list (K * V)) : list (K * V) :=
  foldl (λ acc kv, dict_set kv.1 kv.2 acc) d d2.
End Dict.

(** [l[i::n]] for [n >= 1]: positions i, i+n, i+2n, ... *)
Definition slice_from_step {A} (i n : nat) (l : list A) : list A :=
  omap (λ j, l !! (i + j * n)%nat) (seq 0 (length l)).

(** [max(l)]; [None] is the ValueError on an empty list. *)
Definition py_max (l : list nat) : option nat :=
  match l with
  | [] => None
  | x :: l' => Some (foldl Nat.max x l')
  end.

Section Builder.
(** An example is an (inputs, output) pair of DSL values; only the oracles
    look inside. *)
Context {Example : Type}.
(** [constraint.is_same(program, other, examples)] *)
Context (is_same : Program → Program → list Example → bool).

Local Abbreviation Corpus := (list (Program * list Example)).

(** Lines 222-225: the scan of [existing_programs] for one new program. *)
Fixpoint discard_scan (program : Program) (others : list Program)
    (new_examples : Corpus) : option Corpus :=
  match others with
  | [] => Some new_examples
  | other :: rest =>
    examples ← dict_get program new_examples;
    if is_same program other examples then Some (dict_del program new_examples)
    else discard_scan program rest new_examples
  end.

Fixpoint discard_loop (existing_programs new_programs : list Program)
    (new_examples : Corpus) : option Corpus :=
  match new_programs with
  | [] => Some new_examples
  | program :: rest =>
    new_examples' ← discard_scan program existing_programs new_examples;
    discard_loop existing_programs rest new_examples'
  end.

(** [discard_identical_worker(new_examples)], with the global
    [existing_programs] as a parameter. *)
Definition discard_identical_worker (existing_programs : list Program)
    (new_examples : Corpus) : option Corpus :=
  let new_programs := dict_keys new_examples in
  discard_loop existing_programs new_programs new_examples.

(** [{p: new_examples[p] for p in programs}] *)
Fixpoint dict_part (new_examples : Corpus) (programs : list Program)
    (acc : Corpus) : option Corpus :=
  match programs with
  | [] => Some acc
  | p :: rest =>
    examples ← dict_get p new_examples;
    dict_part new_examples rest (dict_set p examples acc)
  end.

(** Lines 296-307: shard the batch, discard in every shard, merge.  A pool
    of fewer than one process is refused ([None]). *)
Definition merge_batch (num_workers : Z) (examples new_examples : Corpus)
    : option Corpus :=
  if bool_decide (num_workers < 1) then None
  else
    let existing_programs := dict_keys examples in
    let new_programs := dict_keys new_examples in
    let new_program_parts :=
      (λ i, slice_from_step i (Z.to_nat num_workers) new_programs)
        <$> seq 0 (Z.to_nat num_workers) in
    new_example_parts ← mapM (λ programs, dict_part new_examples programs [])
                             new_program_parts;
    res ← mapM (discard_identical_worker existing_programs) new_example_parts;
    Some (foldl dict_update examples res).

(** [gen_programs(program_len, num_programs, args)]: the enumeration and
    example-generation pools, taken as given. *)
Context (gen_programs : Z → Z → Corpus).
Context (num_train num_test max_train_len num_workers : Z).

(** Lines 288-307.  The log lists the lengths [gen_programs] was called
    for; the corpus is [None] when something raised. *)
Fixpoint length_loop (lens : list Z) (examples : Corpus) (log : list Z)
    : list Z * option Corpus :=
  match lens with
  | [] => (log, Some examples)
  | program_len :: rest =>
    let num_programs := quota num_train num_test program_len in
    let new_examples := gen_programs program_len num_programs in
    match merge_batch num_workers examples new_examples with
    | None => (log ++ [program_len], None)
    | Some examples' => length_loop rest examples' (log ++ [program_len])
    end
  end.

(** The persisted format: [json.loads], [Program.parse(line['program'])]
    and [Example.from_line(line)], each of which may raise. *)
Context {Json : Type}.
Context (json_loads : string → option Json).
Context (Program_parse : Json → option Program).
Context (Example_from_line : Json → option (list Example)).

Fixpoint load_cache_loop (lines : list Json) (examples : Corpus) : option Corpus :=
  match lines with
  | [] => Some examples
  | line :: rest =>
    program ← Program_parse line;
    p_examples ← Example_from_line line;
    load_cache_loop rest (dict_set program p_examples examples)
  end.

(** [load_cache(path)], on the lines of the file. *)
Definition load_cache (file_lines : list string) : option Corpus :=
  lines ← mapM json_loads file_lines;
  load_cache_loop lines [].

(** Lines 281-307 of [main]: the corpus after the per-length loop.
    [cache] holds the lines of the cache file when [--cache] is given. *)
Definition main_corpus (cache : option (list string)) : list Z * option Corpus :=
  match cache with
  | Some file_lines =>
    match load_cache file_lines with
    | None => ([], None)
    | Some examples =>
      match py_max (len <$> dict_keys examples) with
      | None => ([], None)
      | Some min_len =>
        length_loop (seqZ (Z.of_nat min_len + 1) (max_train_len - Z.of_nat min_len))
                    examples []
      end
    end
  | None => length_loop (seqZ 1 max_train_len) [] []
  end.

(** Lines 332-336: [j] counts from the start of [test_candidates[i+1:]]. *)
Fixpoint mark_equivalent (examples : Corpus) (program : Program)
    (others : list (nat * Program)) (indices_to_discard : gset nat)
    : option (gset nat) :=
  match others with
  | [] => Some indices_to_discard
  | (j, other) :: rest =>
    if bool_decide (j ∈ indices_to_discard) then
      mark_equivalent examples program rest indices_to_discard
    else
      p_examples ← dict_get program examples;
      if is_same program other p_examples then
        mark_equivalent examples program rest ({[j]} ∪ indices_to_discard)
      else mark_equivalent examples program rest indices_to_discard
  end.

Definition enumerate {A} (l : list A) : list (nat * A) := imap (λ i x, (i, x)) l.

(** Lines 320-336. *)
Fixpoint sample_tests (examples : Corpus) (test_candidates : list Program)
    (todo : list (nat * Program)) (test_programs : list Program)
    (indices_to_discard : gset nat) : option (list Program * gset nat) :=
  match todo with
  | [] => Some (test_programs, indices_to_discard)
  | (i, program) :: rest =>
    if bool_decide (Z.of_nat (length test_programs) >= num_test) then
      Some (test_programs, indices_to_discard)
    else if bool_decide (i ∈ indices_to_discard) then
      sample_tests examples test_candidates rest test_programs indices_to_discard
    else
      let test_programs := test_programs ++ [program] in
      let indices_to_discard := {[i]} ∪ indices_to_discard in
      indices_to_discard ←
        mark_equivalent examples program
          (enumerate (drop (S i) test_candidates)) indices_to_discard;
      sample_tests examples test_candidates rest test_programs indices_to_discard
  end.

(** Lines 314-340 for one test length: the test programs, the training
    pool and the generator after [random.shuffle]. *)
Definition test_round {R : Type} (randbelow : R → nat → nat * R) (g : R)
    (examples : Corpus) (test_len : Z) (train_programs : list Program)
    : option (list Program * list Program * R) :=
  let test_candidates :=
    filter (λ x, Z.of_nat (length (statements x)) = test_len) train_programs in
  let train_programs :=
    filter (λ x, Z.of_nat (length (statements x)) ≠ test_len) train_programs in
  let '(test_candidates, g) := shuffle randbelow g test_candidates in
  '(test_programs, indices_to_discard) ←
    sample_tests examples test_candidates (enumerate test_candidates) [] ∅;
  Some (test_programs,
        train_programs ++
          omap (λ i, if bool_decide (i ∈ indices_to_discard) then None
                     else test_candidates !! i)
               (seq 0 (length test_candidates)),
        g).
End Builder.

(** ** Examples for a batch, and the persisted records *)

Section Examples.
Context {Example : Type}.
(** [constraint.get_input_output_examples(program, ...)]: the examples, or
    nothing when the tries are used up. *)
Context (get_input_output_examples : Program → option (list Example)).

(** [gen_examples_worker(program)], without its progress counters: the
    examples when they are truthy, [None] for a missing or empty list. *)
Definition gen_examples_worker (program : Program) : option (list Example) :=
  match get_input_output_examples program with
  | Some (e :: es) => Some (e :: es)
  | _ => None
  end.

(** Lines 173-188 of [gen_programs], on the lists the enumeration pool
    returned: flatten, [list(set(programs))], one example list per
    program, [dict(zip(programs, res))], and the entries with a truthy
    value.  The order in which Python iterates the set is not specified;
    [remove_dups] fixes one. *)
Definition collect_batch (programs : list (list Program)) : list (Program * list Example) :=
  let programs := mjoin programs in
  let programs := remove_dups programs in
  let res := gen_examples_worker <$> programs in
  let examples := foldl (λ d kv, dict_set kv.1 kv.2 d) [] (zip programs res) in
  omap (λ kv, match kv.2 with
              | Some (e :: es) => Some (kv.1, e :: es)
              | _ => None
              end) examples.
End Examples.

(** The line break that ends a record. *)
Definition newline : string := String (Ascii.ascii_of_nat 10) EmptyString.

Section Writer.
(** DSL values and what [x.val] gives; an example is the pair of its
    inputs and its output. *)
Context {Value Raw : Type} (val : Value → Raw).
(** [program.encoded], and [json.dumps] of a record with the fields
    [program] and [examples], each example with [inputs] and [output]. *)
Context (encoded : Program → string).
Context (json_dumps : string * list (list Raw * Raw) → string).

(** [write_programs_to_file(f, programs, examples)]: the lines written, or
    [None] when [examples[program]] raises.  A dumped record holds no
    line break, so the lines written are the lines read back. *)
Definition write_programs_to_file (programs : list Program)
    (examples : list (Program * list (list Value * Value))) : option (list string) :=
  mapM (λ program,
          p_examples ← dict_get program examples;
          let raw_examples :=
            (λ ex : list Value * Value, (val <$> ex.1, val ex.2)) <$> p_examples in
          let data := (encoded program, raw_examples) in
          Some (json_dumps data +:+ newline))
       programs.
End Writer.

Section TestRounds.
Context {Example R : Type}.
Context (is_same : Program → Program → list Example → bool).
Context (randbelow : R → nat → nat * R) (num_test : Z).

(** Lines 313-345: one round per test length, in the order the set
    [test_lens] is iterated; the test programs of each length, then the
    training pool. *)
Fixpoint test_rounds (g : R) (examples : list (Program * list Example))
    (test_lens : list Z) (train_programs : list Program)
    : option (list (Z * list Program) * list Program) :=
  match test_lens with
  | [] => Some ([], train_programs)
  | test_len :: rest =>
    '(test_programs, train_programs, g) ←
      test_round is_same num_test randbelow g examples test_len train_programs;
    '(tests, train_programs) ← test_rounds g examples rest train_programs;
    Some ((test_len, test_programs) :: tests, train_programs)
  end.
End TestRounds.

(** ** The enumeration pool with one process *)

Section OneProcess.
Context {R Example : Type} (randbelow : R → nat → nat * R).
Context (program_len : Z) (LAMBDAS : list Function).
Context (get_input_output_examples : Program → option (list Example)).

(** Line 170, [gen_prog_pool.map(gen_program_worker, input_type_combinations)],
    for a pool of one process: the tasks run one after the other, on the
    globals the one before left.  With more processes the runs interleave
    on the shared counter, which this does not describe. *)
Fixpoint pool_map_one_process (num_programs : Z) (fuel : nat)
    (input_type_combinations : list (list DslType)) (st : state R)
    : option (list (list Program) * state R) :=
  match input_type_combinations with
  | [] => Some ([], st)
  | input_types :: rest =>
    '(res, st) ← gen_program_worker randbelow num_programs program_len LAMBDAS
                   fuel input_types st;
    '(programs, st) ← pool_map_one_process num_programs fuel rest st;
    Some (res :: programs, st)
  end.

(** [gen_programs(program_len, num_programs, args)] with one process:
    the counter starts at 0; the batch is collected from the results. *)
Definition gen_programs_one_process (num_inputs num_programs : Z) (fuel : nat)
    (st : state R) : option (list (Program * list Example)) :=
  let st := {| ALL_FUNCTIONS := ALL_FUNCTIONS st; rng := rng st; progress_counter := 0 |} in
  let input_type_combinations := get_input_type_combinations num_inputs in
  '(programs, _) ← pool_map_one_process num_programs fuel input_type_combinations st;
  Some (collect_batch get_input_output_examples programs).
End OneProcess.

(** ** A small catalog, used to run the definitions on concrete inputs *)

Definition list_to_int (nm : string) : Function :=
  {| name := nm; input_type := Single LIST; output_type := INT;
     type := FunctionType [PList] PInt |}.

Definition list_to_list (nm : string) : Function :=
  {| name := nm; input_type := Single LIST; output_type := LIST;
     type := FunctionType [PList] PList |}.

Definition HEAD : Function := list_to_int "HEAD".
Definition MAXIMUM : Function := list_to_int "MAXIMUM".
Definition SORT : Function := list_to_list "SORT".
Definition REVERSE : Function := list_to_list "REVERSE".

(** A generator whose draw for [randbelow(n)] is always [n - 1]: every
    shuffle leaves the list as it is. *)
Definition top_draw (g : unit) (n : nat) : nat * unit := ((n - 1)%nat, g).

(** A generator whose draw is always 0: every shuffle moves the first
    entry to the end. *)
Definition zero_draw (g : unit) (n : nat) : nat * unit := (0%nat, g).

Definition start_state (fs : list Function) : state unit :=
  {| ALL_FUNCTIONS := fs; rng := tt; progress_counter := 0 |}.

Definition stmt (f : Function) (i : nat) : Statement :=
  {| function := f; args := [Var i] |}.

(** [LIST | HEAD 0] *)
Definition head_program : Program :=
  {| input_types := [LIST]; statements := [stmt HEAD 0] |}.

(** Three programs of length 2 over one list input. *)
Definition reverse_maximum : Program :=
  {| input_types := [LIST]; statements := [stmt REVERSE 0; stmt MAXIMUM 1] |}.
Definition sort_head : Program :=
  {| input_types := [LIST]; statements := [stmt SORT 0; stmt HEAD 1] |}.
Definition sort_maximum : Program :=
  {| input_types := [LIST]; statements := [stmt SORT 0; stmt MAXIMUM 1] |}.

(** An equivalence oracle for these programs: two programs agree when
    their last statements apply the same function (the maximum of a list
    does not depend on its order; the head does). *)
Definition last_function (p : Program) : option Function :=
  match reverse (statements p) with
  | s :: _ => Some (function s)
  | [] => None
  end.

Definition same_last (p q : Program) (examples : list nat) : bool :=
  bool_decide (last_function p = last_function q).

(** A batch of two programs, each with one example. *)
Definition maximum_batch : list (Program * list nat) :=
  [(reverse_maximum, [1%nat]); (sort_maximum, [2%nat])].

(** A cache file of one line, and its decoding. *)
Definition one_line_cache : list string := ["head"].
Definition toy_json_loads (s : string) : option string := Some s.
Definition toy_program_parse (j : string) : option Program :=
  if decide (j = "head") then Some head_program else None.
Definition toy_examples (j : string) : option (list nat) := Some [7%nat].
Definition toy_gen_programs (program_len num_programs : Z) : list (Program * list nat) :=
  if decide (program_len = 2) then maximum_batch else [].

(** [LIST, LIST | HEAD 1]: the first input is still free. *)
Definition head_of_second : Program :=
  {| input_types := [LIST; LIST]; statements := [stmt HEAD 1] |}.

(** A bucket of three candidates of length 2, which [top_draw] leaves in
    this order, with the examples of each. *)
Definition bucket : list Program := [reverse_maximum; sort_head; sort_maximum].
Definition bucket_examples : list (Program * list nat) :=
  [(reverse_maximum, [1%nat]); (sort_head, [3%nat]); (sort_maximum, [2%nat])].

(** A cache whose second record does not decode. *)
Definition broken_cache : list string := ["head"; "tail"].

(** ** Malformed records *)

Section Malformed.
Context {Example Json : Type}.
Context (json_loads : string → option Json).
Context (Program_parse : Json → option Program).
Context (Example_from_line : Json → option (list Example)).

(** A line is malformed when one of the three decoding steps raises. *)
Definition malformed (line : string) : Prop :=
  match json_loads line with
  | None => True
  | Some j => Program_parse j = None ∨ Example_from_line j = None
  end.
End Malformed.

(** ** The restart loop, unrolled *)

Section Restarts.
Context {R : Type} (randbelow : R → nat → nat * R).
Context (num_programs program_len : Z) (LAMBDAS : list Function).

(** One iteration of the body of [while]: a whole search from the empty
    program. *)
Definition restart (program_base : Program) (s : list Program * state R)
    : list Program * state R :=
  match helper randbelow num_programs program_len LAMBDAS
          (S (Z.to_nat program_len)) program_base s.1 s.2 with
  | Some (_, res', st') => (res', st')
  | None => s
  end.

(** The result set and the state after [n] restarts. *)
Definition restarts (n : nat) (input_types : list DslType) (st : state R)
    : list Program * state R :=
  Nat.iter n (restart {| input_types := input_types; statements := [] |}) ([], st).
End Restarts.

(** ** Vocabulary of the properties *)

(** A candidate list is partitioned when the free entries form a prefix. *)
Definition partitioned (free_indxs : gset nat) (l : list arg) : Prop :=
  ∃ front back, l = front ++ back
    ∧ Forall (λ a, arg_in a free_indxs = true) front
    ∧ Forall (λ a, arg_in a free_indxs = false) back.

(** The partial program one level down: [program] with one more statement. *)
Definition extend (program : Program) (f : Function) (args : list arg) : Program :=
  {| input_types := input_types program;
     statements := statements program ++ [{| function := f; args := args |}] |}.

(** [programs'] extends [programs] by programs that satisfy [Good] only. *)
Definition grows_by (Good : Program → Prop) (programs programs' : list Program) : Prop :=
  ∀ p, p ∈ programs' → p ∈ programs ∨ Good p.

(** The recursive call relates the result set and the state before and
    after by [Rel], on partial programs that satisfy [Pre]. *)
Definition rec_related {R : Type} (Pre : Program → Prop)
    (Rel : list Program * state R → list Program * state R → Prop)
    (rec : Program → list Program → state R → option (helper_result (R:=R))) : Prop :=
  ∀ next programs st r programs' st',
    Pre next → rec next programs st = Some (r, programs', st') →
    Rel (programs, st) (programs', st').

(** Statement [j] only reads variables that exist before it: the inputs
    and the results of statements [0 .. j-1]. *)
Definition well_scoped (p : Program) : Prop :=
  ∀ j s i, statements p !! j = Some s → Var i ∈ args s →
           (i < length (input_types p) + j)%nat.

(** Variable [i] is an argument of a statement that comes after it. *)
Definition referenced_later (p : Program) (i : nat) : Prop :=
  ∃ j s, statements p !! j = Some s ∧ Var i ∈ args s
         ∧ (i < length (input_types p) + j)%nat.

(** What holds of a program when [helper] puts it into the result set. *)
Definition accepted (p : Program) : Prop :=
  get_unused_indices p = ∅ ∧ well_scoped p.

(** A shard is a dictionary of entries of the batch. *)
Definition shard_of {Example : Type}
    (new_examples part : list (Program * list Example)) : Prop :=
  NoDup (dict_keys part)
  ∧ ∀ p ex, (p, ex) ∈ part → dict_get p new_examples = Some ex.

(** The typed argument slots of a function, as [iterate_inputs] reads them. *)
Definition slot_types (f : Function) : list DslType :=
  match input_type f with
  | Tuple ts => ts
  | Single t => [t]
  end.

(** The positions [i] and [j] exchanged, all others kept. *)
Definition swap_index (i j n : nat) : nat :=
  if decide (n = i) then j else if decide (n = j) then i else n.

(** An argument fits a slot of type [t] when it is a variable of type [t]
    among [vts], or a library lambda of type [t]. *)
Definition arg_has_type (LAMBDAS : list Function) (vts : list DslType)
    (a : arg) (t : DslType) : Prop :=
  match a with
  | Var i => vts !! i = Some t
  | Lam f => type f = t ∧ f ∈ LAMBDAS
  end.

(** Statement [j] fills each slot of its function with an argument of the
    slot's type, taken from the variables that exist before it. *)
Definition well_typed (LAMBDAS : list Function) (p : Program) : Prop :=
  ∀ j s, statements p !! j = Some s →
    Forall2 (arg_has_type LAMBDAS (take (length (input_types p) + j) (var_types p)))
            (args s) (slot_types (function s)).

(** The recursive call keeps the state invariant [Inv] and relates the
    result set and the state before and after by [Rel]. *)
Definition rec_keeps {R : Type} (Pre : Program → Prop) (Inv : state R → Prop)
    (Rel : list Program * state R → list Program * state R → Prop)
    (rec : Program → list Program → state R → option (helper_result (R:=R))) : Prop :=
  ∀ next programs st r programs' st',
    Pre next → Inv st → rec next programs st = Some (r, programs', st') →
    Rel (programs, st) (programs', st') ∧ Inv st'.

(** Every statement is the first to consume one of its variables. *)
Definition consumes_fresh (p : Program) : Prop :=
  ∀ j s, statements p !! j = Some s →
    ∃ i, Var i ∈ args s
         ∧ ∀ j' s', (j' < j)%nat → statements p !! j' = Some s' → Var i ∉ args s'.

(** A new program is kept when the oracle judges it, on its own examples,
    different from every existing program. *)
Definition judged_new {Example : Type} (is_same : Program → Program → list Example → bool)
    (existing : list Program) (entry : Program * list Example) : bool :=
  forallb (λ other, negb (is_same entry.1 other entry.2)) existing.

(** The three decoding steps of [load_cache] on one line. *)
Definition decode_line {Example Json : Type} (json_loads : string → option Json)
    (Program_parse : Json → option Program)
    (Example_from_line : Json → option (list Example))
    (line : string) : option (Program * list Example) :=
  j ← json_loads line;
  program ← Program_parse j;
  p_examples ← Example_from_line j;
  Some (program, p_examples).

(** A codec that keeps the program of one record, and a corpus of valued
    examples for it. *)
Definition toy_encoded (p : Program) : string :=
  if decide (p = head_program) then "head" else "other".
Definition toy_json_dumps (data : string * list (list nat * nat)) : string := data.1.
Definition toy_parse_record (j : string) : option Program :=
  if decide (j = "head" +:+ newline) then Some head_program else None.
Definition toy_examples_of_record (j : string) : option (list (list nat * nat)) :=
  Some [([1%nat], 2%nat)].
Definition valued_corpus : list (Program * list (list nat * nat)) :=
  [(head_program, [([1%nat], 2%nat)])].

(** An example oracle that finds one example for every program. *)
Definition toy_oracle (p : Program) : option (list nat) := Some [1%nat].

(** * Properties *)

(** ** Input-type signatures and quotas *)

Lemma elem_of_get_input_type_combinations sig num_inputs :
  sig ∈ get_input_type_combinations num_inputs →
  ∃ num_list n, 1 ≤ num_list ∧
    sig = replicate (Z.to_nat num_list) LIST ++ replicate (Z.to_nat (n - num_list)) INT.
Proof.
  unfold get_input_type_combinations.
  intros (n & Hsig & Hn)%list_elem_of_bind.
  apply list_elem_of_bind in Hsig as (num_list & Hsig & Hl).
  apply list_elem_of_singleton in Hsig.
  apply elem_of_seqZ in Hl. exists num_list, n. split; [lia | done].
Qed.

(** C9: every signature returned by [get_input_type_combinations] has a
    LIST slot, and so is never made of scalar-int slots only. *)
Theorem input_type_combinations_have_list (num_inputs : Z) :
  Forall (λ sig, LIST ∈ sig ∧ ¬ Forall (λ t, t = INT) sig)
         (get_input_type_combinations num_inputs).
Proof.
  apply Forall_forall. intros sig Hsig.
  apply elem_of_get_input_type_combinations in Hsig as (num_list & n & Hpos & ->).
  assert (Hin : LIST ∈ replicate (Z.to_nat num_list) LIST
                       ++ replicate (Z.to_nat (n - num_list)) INT).
  { apply elem_of_app. left. destruct (Z.to_nat num_list) as [|k] eqn:Hk; [lia|].
    simpl. apply list_elem_of_here. }
  split; [done|].
  intros Hall. rewrite Forall_forall in Hall. by specialize (Hall _ Hin).
Qed.

(** The signatures for up to two inputs. *)
Example input_type_combinations_2 :
  get_input_type_combinations 2 = [[LIST]; [LIST; INT]; [LIST; LIST]].
Proof. reflexivity. Qed.

(** C7: the quota is capped at 47 for length 1 and at 2883 for length 2,
    and is [num_train + num_test] for every other length. *)
Theorem quota_capped_for_short_lengths (num_train num_test program_len : Z) :
  quota num_train num_test program_len =
    (if decide (program_len = 1) then Z.min (num_train + num_test) 47
     else if decide (program_len = 2) then Z.min (num_train + num_test) 2883
     else num_train + num_test)
  ∧ quota num_train num_test 1 ≤ 47
  ∧ quota num_train num_test 2 ≤ 2883.
Proof.
  unfold quota, KNOWN_TRAIN_SIZES. split.
  - destruct (decide (program_len = 1)) as [->|H1]; [done|].
    destruct (decide (program_len = 2)) as [->|H2]; [done|].
    rewrite lookup_insert_ne by done. rewrite lookup_singleton_ne by done. done.
  - split.
    + rewrite lookup_insert_eq. lia.
    + rewrite lookup_insert_ne by done. rewrite lookup_singleton_eq. lia.
Qed.

(** ** The candidate index: free variables come first *)

Section CandidateOrder.
Context (free_indxs : gset nat).

Lemma partitioned_nil : partitioned free_indxs [].
Proof. exists [], []. by repeat split. Qed.

Lemma partitioned_cons_free a l :
  arg_in a free_indxs = true → partitioned free_indxs l → partitioned free_indxs (a :: l).
Proof.
  intros Ha (front & back & -> & Hf & Hb).
  exists (a :: front), back. repeat split; [|done]. by constructor.
Qed.

Lemma partitioned_snoc_bound a l :
  arg_in a free_indxs = false → partitioned free_indxs l → partitioned free_indxs (l ++ [a]).
Proof.
  intros Ha (front & back & -> & Hf & Hb).
  exists front, (back ++ [a]). rewrite (assoc_L (++)). repeat split; [done|].
  apply Forall_app. split; [done|]. by constructor.
Qed.

(** In a partitioned free_indxs list no bound entry stands before a free one. *)
Lemma partitioned_lookup l m n x y :
  partitioned free_indxs l → l !! m = Some x → l !! n = Some y →
  arg_in x free_indxs = true → arg_in y free_indxs = false → (m < n)%nat.
Proof.
  intros (front & back & -> & Hf & Hb) Hm Hn Hx Hy.
  destruct (decide (m < length front)%nat) as [Hlt|Hge].
  - destruct (decide (n < length front)%nat) as [Hn'|Hn']; [|lia].
    rewrite lookup_app_l in Hn by done.
    rewrite Forall_lookup in Hf. specialize (Hf _ _ Hn). congruence.
  - rewrite lookup_app_r in Hm by lia.
    rewrite Forall_lookup in Hb. specialize (Hb _ _ Hm). congruence.
Qed.

Lemma remove_first_middle {A} `{EqDecision A} (x : A) l1 l2 :
  x ∉ l1 → remove_first x (l1 ++ x :: l2) = l1 ++ l2.
Proof.
  induction l1 as [|y l1 IH]; intros Hx; simpl.
  - by rewrite decide_True.
  - apply not_elem_of_cons in Hx as [Hne Hx].
    rewrite decide_False by done. by rewrite IH.
Qed.

(** One pass over a duplicate-free list: [seen] are the positions already
    visited, [todo] the ones still ahead of the iterator. *)
Lemma move_free_loop_spec todo seen :
  NoDup (seen ++ todo) → partitioned free_indxs seen →
  let l' := move_free_loop (length todo) (length seen) free_indxs (seen ++ todo) in
  partitioned free_indxs l' ∧ l' ≡ₚ seen ++ todo.
Proof.
  revert seen. induction todo as [|var todo IH]; intros seen Hnd Hp; simpl.
  - by rewrite (right_id_L [] (++)).
  - rewrite lookup_app_r by lia. rewrite Nat.sub_diag. simpl.
    assert (Hvar : var ∉ seen).
    { apply NoDup_app in Hnd as (_ & Hdisj & _). intros Hin.
      apply (Hdisj _ Hin). apply list_elem_of_here. }
    destruct (arg_in var free_indxs) eqn:Hfree.
    + rewrite remove_first_middle by done.
      specialize (IH (var :: seen)). simpl in IH.
      destruct IH as [IH1 IH2].
      * eapply NoDup_Permutation_proper; [|exact Hnd].
        by rewrite Permutation_middle.
      * by apply partitioned_cons_free.
      * split; [done|]. rewrite IH2. by rewrite Permutation_middle.
    + specialize (IH (seen ++ [var])).
      rewrite length_app in IH. simpl in IH.
      rewrite <- (assoc_L (++)) in IH. simpl in IH.
      replace (length seen + 1)%nat with (S (length seen)) in IH by lia.
      apply IH; [done|]. by apply partitioned_snoc_bound.
Qed.

Lemma move_free_spec l :
  NoDup l → partitioned free_indxs (move_free free_indxs l) ∧ move_free free_indxs l ≡ₚ l.
Proof.
  intros Hnd. apply (move_free_loop_spec l []); [done | apply partitioned_nil].
Qed.

(** A pass keeps a partitioned free_indxs list partitioned free_indxs as well. *)
Lemma reorder_free_spec vts (ttv : TypeToVars) :
  (∀ t, NoDup (ttv t)) →
  (∀ t, NoDup (reorder_free free_indxs vts ttv t))
  ∧ (∀ t, reorder_free free_indxs vts ttv t ≡ₚ ttv t)
  ∧ (∀ t, t ∈ vts ∨ partitioned free_indxs (ttv t) →
          partitioned free_indxs (reorder_free free_indxs vts ttv t)).
Proof.
  unfold reorder_free. revert ttv. induction vts as [|typ vts IH]; intros ttv Hnd; simpl.
  - split; [done|]. split; [done|]. intros t [Hin|Hp]; [|done]. by apply elem_of_nil in Hin.
  - pose proof (move_free_spec (ttv typ) (Hnd typ)) as [Hpart Hperm].
    set (ttv' := <[typ := move_free free_indxs (ttv typ)]> ttv).
    assert (Hnd' : ∀ t, NoDup (ttv' t)).
    { intros t. unfold ttv'. destruct (decide (typ = t)) as [->|Hne].
      - rewrite fn_lookup_insert. by rewrite Hperm.
      - by rewrite fn_lookup_insert_ne. }
    destruct (IH ttv' Hnd') as (IH1 & IH2 & IH3).
    split; [done|]. split.
    + intros t. rewrite IH2. unfold ttv'. destruct (decide (typ = t)) as [->|Hne].
      * by rewrite fn_lookup_insert.
      * by rewrite fn_lookup_insert_ne.
    + intros t Ht. apply IH3. destruct (decide (typ = t)) as [->|Hne].
      * right. unfold ttv'. by rewrite fn_lookup_insert.
      * destruct Ht as [Hin|Hp].
        -- left. apply elem_of_cons in Hin as [->|Hin]; done.
        -- right. unfold ttv'. by rewrite fn_lookup_insert_ne.
Qed.
End CandidateOrder.

Lemma index_vars_snoc vts t0 :
  index_vars (vts ++ [t0]) = <[t0 := Var (length vts) :: index_vars vts t0]> (index_vars vts).
Proof.
  unfold index_vars. rewrite imap_app, foldl_app. simpl.
  by rewrite Nat.add_0_r.
Qed.

(** The index lists each variable once, under its own type. *)
Lemma index_vars_spec vts t :
  NoDup (index_vars vts t)
  ∧ ∀ a, a ∈ index_vars vts t → ∃ i, a = Var i ∧ vts !! i = Some t.
Proof.
  induction vts as [|t0 vts IH] using rev_ind.
  - split; [constructor|]. intros a Ha. by apply elem_of_nil in Ha.
  - destruct IH as [IHnd IHin]. rewrite index_vars_snoc.
    destruct (decide (t0 = t)) as [->|Hne].
    + rewrite fn_lookup_insert. split.
      * constructor; [|done]. intros Hin. apply IHin in Hin as (i & [= <-] & Hi).
        apply lookup_lt_Some in Hi. lia.
      * intros a [->|Ha]%elem_of_cons.
        -- exists (length vts). split; [done|]. by rewrite lookup_app_r, Nat.sub_diag.
        -- apply IHin in Ha as (i & -> & Hi). exists i. split; [done|].
           by apply lookup_app_l_Some.
    + rewrite fn_lookup_insert_ne by done. split; [done|].
      intros a Ha. apply IHin in Ha as (i & -> & Hi). exists i. split; [done|].
      by apply lookup_app_l_Some.
Qed.

Lemma index_vars_unlisted vts t : t ∉ vts → index_vars vts t = [].
Proof.
  intros Ht. destruct (index_vars vts t) as [|a l] eqn:Hl; [done|].
  destruct (index_vars_spec vts t) as [_ Hin].
  destruct (Hin a) as (i & _ & Hi); [rewrite Hl; apply list_elem_of_here|].
  exfalso. apply Ht. by eapply list_elem_of_lookup_2.
Qed.

(** The lambdas are appended behind the variables of their type. *)
Lemma add_lambdas_spec LAMBDAS (ttv : TypeToVars) t :
  add_lambdas LAMBDAS ttv t = ttv t ++ (Lam <$> filter (λ f, type f = t) LAMBDAS).
Proof.
  unfold add_lambdas. revert ttv. induction LAMBDAS as [|f fs IH]; intros ttv; simpl.
  - by rewrite app_nil_r.
  - rewrite IH. rewrite filter_cons. destruct (decide (type f = t)) as [<-|Hne].
    + rewrite fn_lookup_insert. by rewrite <- (assoc_L (++)).
    + by rewrite fn_lookup_insert_ne.
Qed.

Lemma partitioned_app_lambdas free_indxs l fs :
  partitioned free_indxs l → partitioned free_indxs (l ++ (Lam <$> fs)).
Proof.
  intros Hp. induction fs as [|f fs IH] using rev_ind.
  - by rewrite fmap_nil, app_nil_r.
  - rewrite fmap_app, (assoc_L (++)). by apply partitioned_snoc_bound.
Qed.

(** Every candidate list of the finished index is partitioned. *)
Lemma build_type_to_vars_partitioned LAMBDAS program program_len typ :
  partitioned (get_free_indices program program_len)
              (build_type_to_vars LAMBDAS program program_len typ).
Proof.
  unfold build_type_to_vars. rewrite add_lambdas_spec.
  apply partitioned_app_lambdas.
  destruct (reorder_free_spec (get_free_indices program program_len)
              (var_types program) (index_vars (var_types program)))
    as (_ & _ & Hpart).
  { intros t. apply index_vars_spec. }
  apply Hpart. destruct (decide (typ ∈ var_types program)) as [Hin|Hout]; [by left|].
  right. rewrite index_vars_unlisted by done. apply partitioned_nil.
Qed.

(** C4: in every candidate list of the index built at a recursion step, a
    free variable index stands before every variable index of that type
    that is not free. *)
Theorem free_candidates_first LAMBDAS program program_len typ (m n i j : nat) :
  build_type_to_vars LAMBDAS program program_len typ !! m = Some (Var i) →
  build_type_to_vars LAMBDAS program program_len typ !! n = Some (Var j) →
  i ∈ get_free_indices program program_len →
  j ∉ get_free_indices program program_len →
  (m < n)%nat.
Proof.
  intros Hm Hn Hi Hj.
  eapply partitioned_lookup;
    [apply (build_type_to_vars_partitioned LAMBDAS program program_len typ)
    | exact Hm | exact Hn | |]; simpl.
  - by apply bool_decide_eq_true.
  - by apply bool_decide_eq_false.
Qed.

Example candidates_head_of_second :
  build_type_to_vars [] head_of_second 2 LIST = [Var 0; Var 1]
  ∧ index_vars (var_types head_of_second) LIST = [Var 1; Var 0].
Proof. split; vm_compute; reflexivity. Qed.

Lemma free_candidates_first_witness : (0 < 1)%nat.
Proof.
  apply (free_candidates_first [] head_of_second 2 LIST 0 1 0 1).
  - vm_compute. reflexivity.
  - vm_compute. reflexivity.
  - apply (bool_decide_unpack _). vm_compute. exact I.
  - apply (bool_decide_unpack _). vm_compute. exact I.
Defined.

(** ** The enumerator: what enters the result set *)

Lemma grows_by_refl Good programs : grows_by Good programs programs.
Proof. intros p Hp. by left. Qed.

Lemma grows_by_trans Good ps1 ps2 ps3 :
  grows_by Good ps1 ps2 → grows_by Good ps2 ps3 → grows_by Good ps1 ps3.
Proof. intros H12 H23 p Hp. destruct (H23 p Hp) as [Hp2|Hg]; [by apply H12 | by right]. Qed.

Lemma grows_by_accept (Good : Program → Prop) program programs :
  Good program → grows_by Good programs (program :: programs).
Proof. intros Hg p [->|Hp]%elem_of_cons; [by right | by left]. Qed.

Section EnumeratorInvariant.
Context {R : Type} (randbelow : R → nat → nat * R).
Context (num_programs program_len : Z) (LAMBDAS : list Function).

(** [Pre] holds of the partial program along every path of the search;
    [Rel] relates the result set and the state before and after, and is
    established by the two places where they change: the shuffle at the
    head of a call and the acceptance at target depth. *)
Context (Pre : Program → Prop).
Context (Rel : list Program * state R → list Program * state R → Prop).
Context (Pre_extend : ∀ program f args,
  Pre program → Z.of_nat (len program) < program_len →
  args ∈ iterate_inputs f (build_type_to_vars LAMBDAS program program_len) →
  Pre (extend program f args)).
Context (Rel_refl : ∀ s, Rel s s).
Context (Rel_trans : ∀ s1 s2 s3, Rel s1 s2 → Rel s2 s3 → Rel s1 s3).
Context (Rel_shuffle : ∀ programs st,
  Rel (programs, st) (programs, shuffle_functions randbelow st)).
Context (Rel_accept : ∀ program programs st,
  Pre program → Z.of_nat (len program) >= program_len →
  get_unused_indices program = ∅ → program ∉ programs →
  Rel (programs, st) (program :: programs, count_program st)).

Lemma for_args_related rec f free_indxs used program argss programs (st : state R)
    b programs' st' :
  rec_related Pre Rel rec →
  (∀ args, args ∈ argss → Pre (extend program f args)) →
  for_args rec f free_indxs used program argss programs st = Some (b, programs', st') →
  Rel (programs, st) (programs', st').
Proof.
  intros Hrec. revert programs st.
  induction argss as [|args rest IH]; intros programs st Hpre Hrun; simpl in Hrun.
  - injection Hrun as _ <- <-. apply Rel_refl.
  - assert (Hrest : ∀ args0, args0 ∈ rest → Pre (extend program f args0)).
    { intros args0 Hin. apply Hpre. by apply list_elem_of_further. }
    case_bool_decide; [by eapply IH|].
    case_bool_decide; [by eapply IH|].
    destruct (rec _ programs st) as [[[r ps1] st1]|] eqn:Hcall; [|done].
    assert (Hg1 : Rel (programs, st) (ps1, st1)).
    { eapply Hrec; [|exact Hcall]. apply (Hpre args). apply list_elem_of_here. }
    destruct (truthy r).
    + injection Hrun as _ <- <-. done.
    + eapply Rel_trans; [exact Hg1|]. by eapply IH.
Qed.

Lemma for_functions_related rec ttv free_indxs used program k i programs (st : state R)
    b programs' st' :
  rec_related Pre Rel rec →
  (∀ f args, args ∈ iterate_inputs f ttv → Pre (extend program f args)) →
  for_functions rec ttv free_indxs used program k i programs st = Some (b, programs', st') →
  Rel (programs, st) (programs', st').
Proof.
  intros Hrec Hpre. revert i programs st.
  induction k as [|k IH]; intros i programs st Hrun; simpl in Hrun.
  - injection Hrun as _ <- <-. apply Rel_refl.
  - destruct (ALL_FUNCTIONS st !! i) as [f|]; [|injection Hrun as _ <- <-; apply Rel_refl].
    destruct (for_args rec f free_indxs used program (iterate_inputs f ttv) programs st)
      as [[[b1 ps1] st1]|] eqn:Hargs; [|done].
    assert (Hg1 : Rel (programs, st) (ps1, st1)).
    { eapply for_args_related; [exact Hrec| |exact Hargs]. intros args Hin. by apply Hpre. }
    destruct b1.
    + injection Hrun as _ <- <-. done.
    + eapply Rel_trans; [exact Hg1|]. by eapply IH.
Qed.

(** A call of [helper] changes the result set and the state by shuffles
    and acceptances only. *)
Lemma helper_related d program programs st r programs' st' :
  Pre program →
  helper randbelow num_programs program_len LAMBDAS d program programs st
    = Some (r, programs', st') →
  Rel (programs, st) (programs', st').
Proof.
  revert program programs st r programs' st'.
  induction d as [|d IH]; intros program programs st r programs' st' Hpre Hrun;
    simpl in Hrun; [done|].
  eapply Rel_trans; [apply Rel_shuffle|].
  case_bool_decide as Hquota; [injection Hrun as _ <- <-; apply Rel_refl|].
  case_bool_decide as Hlen.
  - destruct (bool_decide (get_unused_indices program ≠ ∅)
              || bool_decide (program ∈ programs)) eqn:Hreject.
    + injection Hrun as _ <- <-. apply Rel_refl.
    + injection Hrun as _ <- <-. apply orb_false_iff in Hreject as [Hunused Hnew].
      apply bool_decide_eq_false in Hunused. apply bool_decide_eq_false in Hnew.
      apply Rel_accept; [done..| |done].
      destruct (decide (get_unused_indices program = ∅)); [done | by exfalso; apply Hunused].
  - destruct (for_functions _ _ _ _ _ _ _ _ _) as [[[b ps1] st1]|] eqn:Hloop; [|done].
    assert (Hg : Rel (programs, shuffle_functions randbelow st) (ps1, st1)).
    { eapply for_functions_related; [| |exact Hloop].
      - intros next ps0 st0 r0 ps0' st0' Hnext Hcall. by eapply IH.
      - intros f args Hin. apply Pre_extend; [done|lia|done]. }
    destruct b; injection Hrun as _ <- <-; done.
Qed.

(** So does the restart loop, from a base program that satisfies [Pre]. *)
Lemma restart_loop_related fuel program_base res st res' st' :
  Pre program_base →
  restart_loop randbelow num_programs program_len LAMBDAS fuel program_base res st
    = Some (res', st') →
  Rel (res, st) (res', st').
Proof.
  intros Hpre. revert res st. induction fuel as [|fuel IH]; intros res st Hrun;
    cbn [restart_loop] in Hrun; [done|].
  case_bool_decide.
  - destruct (helper _ _ _ _ _ program_base res st) as [[[r res1] st1]|] eqn:Hcall; [|done].
    eapply Rel_trans; [by eapply helper_related | by eapply IH].
  - injection Hrun as <- <-. apply Rel_refl.
Qed.
End EnumeratorInvariant.

Lemma length_var_types p : length (var_types p) = (length (input_types p) + len p)%nat.
Proof. unfold var_types, len. by rewrite length_app, length_fmap. Qed.

Lemma elem_of_product {A} (r : list A) (ls : list (list A)) :
  r ∈ product ls → Forall2 (λ x l, x ∈ l) r ls.
Proof.
  revert r. induction ls as [|l ls IH]; intros r Hr; simpl in Hr.
  - apply list_elem_of_singleton in Hr as ->. constructor.
  - apply list_elem_of_bind in Hr as (x & Hr & Hx).
    apply list_elem_of_bind in Hr as (r' & Hr & Hr').
    apply list_elem_of_singleton in Hr as ->. constructor; [done | by apply IH].
Qed.

(** Every variable offered by the index exists in the partial program. *)
Lemma build_type_to_vars_scoped LAMBDAS program program_len t i :
  Var i ∈ build_type_to_vars LAMBDAS program program_len t →
  (i < length (var_types program))%nat.
Proof.
  unfold build_type_to_vars. rewrite add_lambdas_spec.
  intros [Hin|Hin]%elem_of_app.
  - destruct (reorder_free_spec (get_free_indices program program_len)
                (var_types program) (index_vars (var_types program)))
      as (_ & Hperm & _).
    { intros t'. apply index_vars_spec. }
    rewrite Hperm in Hin.
    apply index_vars_spec in Hin as (i' & [= <-] & Hi). by eapply lookup_lt_Some.
  - apply list_elem_of_fmap in Hin as (f & Hf & _). done.
Qed.

Lemma iterate_inputs_scoped LAMBDAS program program_len f args i :
  args ∈ iterate_inputs f (build_type_to_vars LAMBDAS program program_len) →
  Var i ∈ args → (i < length (var_types program))%nat.
Proof.
  unfold iterate_inputs. intros Hargs%elem_of_product Hi.
  apply list_elem_of_lookup in Hi as (n & Hn).
  destruct (Forall2_lookup_l _ _ _ _ _ Hargs Hn) as (l & Hl & Hin).
  apply list_lookup_fmap_Some in Hl as (t & -> & _).
  by eapply build_type_to_vars_scoped.
Qed.

Lemma well_scoped_extend LAMBDAS program program_len f args :
  well_scoped program →
  args ∈ iterate_inputs f (build_type_to_vars LAMBDAS program program_len) →
  well_scoped (extend program f args).
Proof.
  intros Hws Hargs j s i Hj Hi. simpl in *.
  apply lookup_app_Some in Hj as [Hj|[Hlen Hj]].
  - by eapply Hws.
  - apply list_lookup_singleton_Some in Hj as [Hj <-]. simpl in Hi.
    pose proof (iterate_inputs_scoped _ _ _ _ _ _ Hargs Hi) as Hlt.
    rewrite length_var_types in Hlt. unfold len in Hlt. lia.
Qed.

Lemma well_scoped_base input_types :
  well_scoped {| input_types := input_types; statements := [] |}.
Proof. intros j s i Hj. done. Qed.

Lemma elem_of_get_used_indices p i :
  i ∈ get_used_indices p ↔ ∃ j s, statements p !! j = Some s ∧ Var i ∈ args s.
Proof.
  unfold get_used_indices. rewrite elem_of_union_list. split.
  - intros (X & HX & Hi). apply list_elem_of_fmap in HX as (s & -> & Hs).
    apply list_elem_of_lookup in Hs as (j & Hj).
    apply elem_of_list_to_set, list_elem_of_omap in Hi as (a & Ha & Hidx).
    destruct a as [i'|]; [|done]. injection Hidx as ->. by exists j, s.
  - intros (j & s & Hj & Hi). exists (list_to_set (omap arg_index (args s))). split.
    + apply list_elem_of_fmap. exists s. split; [done|]. by eapply list_elem_of_lookup_2.
    + apply elem_of_list_to_set, list_elem_of_omap. by exists (Var i).
Qed.

(** A well-scoped program without unused indices: every input and every
    intermediate result is consumed by a later statement. *)
Lemma no_unused_referenced_later p i :
  well_scoped p → get_unused_indices p = ∅ →
  (i < length (var_types p) - 1)%nat → referenced_later p i.
Proof.
  intros Hws Hunused Hi.
  assert (Hused : i ∈ get_used_indices p).
  { destruct (decide (i ∈ get_used_indices p)) as [|Hout]; [done|]. exfalso.
    assert (Hin : i ∈ get_unused_indices p).
    { unfold get_unused_indices. apply elem_of_difference. split; [|done].
      apply elem_of_set_seq. lia. }
    rewrite Hunused in Hin. by apply not_elem_of_empty in Hin. }
  apply elem_of_get_used_indices in Hused as (j & s & Hj & Harg).
  exists j, s. repeat split; [done..|]. by eapply Hws.
Qed.

Section AcceptedPrograms.
Context {R : Type} (randbelow : R → nat → nat * R).
Context (num_programs program_len : Z) (LAMBDAS : list Function).

Lemma helper_accepts d program programs (st : state R) r programs' st' :
  well_scoped program →
  helper randbelow num_programs program_len LAMBDAS d program programs st
    = Some (r, programs', st') →
  grows_by accepted programs programs'.
Proof.
  apply (helper_related randbelow num_programs program_len LAMBDAS
           well_scoped (λ s s', grows_by accepted s.1 s'.1)).
  - intros p f args Hws _ Hargs. by eapply well_scoped_extend.
  - intros s. apply grows_by_refl.
  - intros s1 s2 s3. apply grows_by_trans.
  - intros ps s. apply grows_by_refl.
  - intros p ps s Hws _ Hunused _. by apply grows_by_accept.
Qed.

(** C1: every program in the set returned by [gen_program_worker] has an
    empty set of unused indices, and each of its variables, input or
    intermediate result, is an argument of a later statement. *)
Theorem accepted_programs_use_every_variable fuel input_types (st : state R) res st' p :
  gen_program_worker randbelow num_programs program_len LAMBDAS fuel input_types st
    = Some (res, st') →
  p ∈ res →
  get_unused_indices p = ∅
  ∧ ∀ i, (i < length (var_types p) - 1)%nat → referenced_later p i.
Proof.
  unfold gen_program_worker. intros Hrun Hp.
  assert (Hacc : grows_by accepted [] res).
  { apply (restart_loop_related randbelow num_programs program_len LAMBDAS
             well_scoped (λ s s', grows_by accepted s.1 s'.1)) in Hrun; [done|..].
    - intros q f args Hws _ Hargs. by eapply well_scoped_extend.
    - intros s. apply grows_by_refl.
    - intros s1 s2 s3. apply grows_by_trans.
    - intros ps s. apply grows_by_refl.
    - intros q ps s Hws _ Hunused _. by apply grows_by_accept.
    - apply well_scoped_base. }
  destruct (Hacc p Hp) as [Hnil|[Hunused Hws]]; [by apply elem_of_nil in Hnil|].
  split; [done|]. intros i Hi. by apply no_unused_referenced_later.
Qed.
End AcceptedPrograms.

Lemma accepted_programs_use_every_variable_witness :
  get_unused_indices head_program = ∅
  ∧ ∀ i, (i < length (var_types head_program) - 1)%nat → referenced_later head_program i.
Proof.
  eapply (accepted_programs_use_every_variable top_draw 1 1 [] 2 [LIST]
            (start_state [HEAD]) [head_program]).
  - vm_compute. reflexivity.
  - apply list_elem_of_here.
Defined.

(** ** The catalog under shuffling, and the length of accepted programs *)

Lemma length_swap {A} (i j : nat) (x : list A) : length (swap i j x) = length x.
Proof.
  unfold swap. destruct (x !! i); [|done]. destruct (x !! j); [|done].
  by rewrite !length_insert.
Qed.

Section Catalog.
Context {R : Type} (randbelow : R → nat → nat * R).
Context (num_programs program_len : Z) (LAMBDAS : list Function).

Lemma length_shuffle_from {A} (i : nat) (g : R) (x : list A) :
  length (shuffle_from randbelow i g x).1 = length x.
Proof.
  revert g x. induction i as [|i IH]; intros g x; simpl; [done|].
  destruct (randbelow g (S (S i))) as [r g']. by rewrite IH, length_swap.
Qed.

Lemma length_shuffle_functions (st : state R) :
  length (ALL_FUNCTIONS (shuffle_functions randbelow st)) = length (ALL_FUNCTIONS st).
Proof.
  unfold shuffle_functions, shuffle.
  pose proof (length_shuffle_from (length (ALL_FUNCTIONS st) - 1) (rng st)
                (ALL_FUNCTIONS st)) as Hlen.
  destruct (shuffle_from randbelow _ _ _) as [fs g]. done.
Qed.

(** The list that [for function in functions] walks keeps its length
    through every recursive call, so the bound [k] of [for_functions] is
    the number of positions the iterator visits. *)
Lemma helper_keeps_catalog_length d program programs (st : state R) r programs' st' :
  helper randbelow num_programs program_len LAMBDAS d program programs st
    = Some (r, programs', st') →
  length (ALL_FUNCTIONS st') = length (ALL_FUNCTIONS st).
Proof.
  set (same_length := λ s1 s2 : list Program * state R,
         length (ALL_FUNCTIONS s2.2) = length (ALL_FUNCTIONS s1.2)).
  intros Hrun.
  assert (Hrel : same_length (programs, st) (programs', st')).
  { eapply (helper_related randbelow num_programs program_len LAMBDAS
              (λ _, True) same_length); [..|exact Hrun]; unfold same_length; try done.
    - intros s1 s2 s3 H12 H23. simpl in *. congruence.
    - intros ps s. simpl. apply length_shuffle_functions. }
  exact Hrel.
Qed.

(** Programs enter the result set at the target length exactly. *)
Lemma worker_programs_have_target_length fuel input_types (st : state R) res st' p :
  0 ≤ program_len →
  gen_program_worker randbelow num_programs program_len LAMBDAS fuel input_types st
    = Some (res, st') →
  p ∈ res → Z.of_nat (len p) = program_len.
Proof.
  intros Hpos Hrun Hp. unfold gen_program_worker in Hrun.
  set (at_target := λ q : Program, Z.of_nat (len q) = program_len).
  set (Rel := λ s1 s2 : list Program * state R, grows_by at_target s1.1 s2.1).
  assert (Hrel : Rel ([], st) (res, st')).
  { eapply (restart_loop_related randbelow num_programs program_len LAMBDAS
              (λ q, Z.of_nat (len q) ≤ program_len) Rel); [..|exact Hrun]; unfold Rel.
    - intros q f args Hq Hlt _. unfold extend, len in *. simpl.
      rewrite length_app. simpl. lia.
    - intros s. apply grows_by_refl.
    - intros s1 s2 s3. apply grows_by_trans.
    - intros ps s. apply grows_by_refl.
    - intros q ps s Hle Hge _ _. apply grows_by_accept. unfold at_target. lia.
    - unfold len. simpl. lia. }
  destruct (Hrel p Hp) as [Hnil|Hat]; [by apply elem_of_nil in Hnil | done].
Qed.
End Catalog.

(** ** The restart loop: when the worker returns *)

Section Termination.
Context {R : Type} (randbelow : R → nat → nat * R).
Context (num_programs program_len : Z) (LAMBDAS : list Function).

Local Abbreviation helper' := (helper randbelow num_programs program_len LAMBDAS).

Lemma for_args_total rec f free_indxs used program argss programs (st : state R) :
  (∀ args ps st0, is_Some (rec (extend program f args) ps st0)) →
  is_Some (for_args rec f free_indxs used program argss programs st).
Proof.
  intros Hrec. revert programs st.
  induction argss as [|args rest IH]; intros programs st; simpl; [done|].
  case_bool_decide; [apply IH|].
  case_bool_decide; [apply IH|].
  destruct (Hrec args programs st) as [[[r ps1] st1] Hcall].
  unfold extend in Hcall. rewrite Hcall.
  destruct (truthy r); [done | apply IH].
Qed.

Lemma for_functions_total rec ttv free_indxs used program k i programs (st : state R) :
  (∀ f args ps st0, is_Some (rec (extend program f args) ps st0)) →
  is_Some (for_functions rec ttv free_indxs used program k i programs st).
Proof.
  intros Hrec. revert i programs st.
  induction k as [|k IH]; intros i programs st; simpl; [done|].
  destruct (ALL_FUNCTIONS st !! i) as [f|]; [|done].
  destruct (for_args_total rec f free_indxs used program (iterate_inputs f ttv)
              programs st (Hrec f)) as [[[b ps1] st1] ->].
  destruct b; [done | apply IH].
Qed.

(** A search terminates: a depth bound past the target length is never
    exhausted. *)
Lemma helper_total d program programs (st : state R) :
  (0 < d)%nat → program_len < Z.of_nat (len program) + Z.of_nat d →
  is_Some (helper' d program programs st).
Proof.
  revert program programs st.
  induction d as [|d IH]; intros program programs st Hd Hlen; [lia|]. simpl.
  case_bool_decide; [done|].
  case_bool_decide as Hdepth.
  - by destruct (_ || _).
  - destruct (for_functions_total (helper' d)
                (build_type_to_vars LAMBDAS program program_len)
                (get_free_indices program program_len) (statements program) program
                (length (ALL_FUNCTIONS (shuffle_functions randbelow st))) 0 programs
                (shuffle_functions randbelow st)) as [[[b ps1] st1] ->].
    + intros f args ps st0. apply IH.
      * unfold len in *. lia.
      * unfold extend, len in *. simpl. rewrite length_app. simpl. lia.
    + by destruct b.
Qed.

Lemma restart_helper program_base (s : list Program * state R) :
  ∃ r, helper' (S (Z.to_nat program_len)) program_base s.1 s.2
       = Some (r, (restart randbelow num_programs program_len LAMBDAS program_base s).1,
                  (restart randbelow num_programs program_len LAMBDAS program_base s).2).
Proof.
  unfold restart.
  destruct (helper_total (S (Z.to_nat program_len)) program_base s.1 s.2)
    as [[[r ps1] st1] ->]; [lia | lia |]. by exists r.
Qed.
End Termination.

Section RestartLoop.
Context {R : Type} (randbelow : R → nat → nat * R).
Context (num_programs program_len : Z) (LAMBDAS : list Function).

Local Abbreviation restart' := (restart randbelow num_programs program_len LAMBDAS).
Local Abbreviation restart_loop' :=
  (restart_loop randbelow num_programs program_len LAMBDAS).

(** The loop returns exactly when some restart leaves the counter at the
    quota, and then returns what that restart left. *)
Lemma restart_loop_spec fuel program_base (s s' : list Program * state R) :
  restart_loop' fuel program_base s.1 s.2 = Some s' ↔
  ∃ n, (n < fuel)%nat
    ∧ Nat.iter n (restart' program_base) s = s'
    ∧ progress_counter s'.2 >= num_programs
    ∧ ∀ k, (k < n)%nat →
           progress_counter (Nat.iter k (restart' program_base) s).2 < num_programs.
Proof.
  revert s. induction fuel as [|fuel IH]; intros s; cbn [restart_loop].
  - split; [done|]. intros (n & Hn & _). lia.
  - case_bool_decide as Hquota.
    + destruct (restart_helper randbelow num_programs program_len LAMBDAS program_base s)
        as [r ->].
      rewrite (IH (restart' program_base s)). split.
      * intros (n & Hn & Hiter & Hmet & Hbelow). exists (S n).
        split; [lia|]. rewrite Nat.iter_succ_r. split; [done|]. split; [done|].
        intros [|k] Hk; [done|]. rewrite Nat.iter_succ_r. apply Hbelow. lia.
      * intros ([|n] & Hn & Hiter & Hmet & Hbelow).
        { simpl in Hiter. subst s'. lia. }
        exists n. split; [lia|]. rewrite Nat.iter_succ_r in Hiter.
        split; [done|]. split; [done|].
        intros k Hk. specialize (Hbelow (S k)). rewrite Nat.iter_succ_r in Hbelow.
        apply Hbelow. lia.
    + split.
      * intros [= <-]. exists 0%nat. simpl. destruct s as [res st]. simpl in *.
        repeat split; [lia | lia | intros k Hk; lia].
      * intros ([|n] & Hn & Hiter & Hmet & Hbelow).
        { simpl in Hiter. subst s'. by destruct s. }
        specialize (Hbelow 0%nat). simpl in Hbelow. lia.
Qed.

(** A restart only adds programs that are not yet in the set. *)
Lemma restart_NoDup program_base (s : list Program * state R) :
  NoDup s.1 → NoDup (restart' program_base s).1.
Proof.
  destruct (restart_helper randbelow num_programs program_len LAMBDAS program_base s)
    as [r Hcall].
  set (keeps_distinct := λ s1 s2 : list Program * state R, NoDup s1.1 → NoDup s2.1).
  assert (Hrel : keeps_distinct (s.1, s.2)
                   ((restart' program_base s).1, (restart' program_base s).2)).
  { eapply (helper_related randbelow num_programs program_len LAMBDAS
              (λ _, True) keeps_distinct); [..|exact Hcall]; unfold keeps_distinct;
      try done; try tauto.
    intros program programs st _ _ _ Hnew Hnd. by constructor. }
  exact Hrel.
Qed.

Lemma restarts_NoDup n input_types (st : state R) :
  NoDup (restarts randbelow num_programs program_len LAMBDAS n input_types st).1.
Proof.
  unfold restarts. induction n as [|n IH]; simpl; [constructor|].
  by apply restart_NoDup.
Qed.

(** C5, as the code has it: the worker returns exactly when some restart
    leaves the progress counter at or above the quota, with the result
    set of that restart; that set never holds a program twice, and every
    single search from the empty program terminates.  Nothing bounds the
    number of restarts. *)
Theorem worker_returns_iff_quota_reached fuel input_types (st : state R) res st' :
  (gen_program_worker randbelow num_programs program_len LAMBDAS fuel input_types st
     = Some (res, st')
   ↔ ∃ n, (n < fuel)%nat
       ∧ restarts randbelow num_programs program_len LAMBDAS n input_types st = (res, st')
       ∧ progress_counter st' >= num_programs
       ∧ ∀ k, (k < n)%nat →
           progress_counter
             (restarts randbelow num_programs program_len LAMBDAS k input_types st).2
           < num_programs)
  ∧ NoDup (restarts randbelow num_programs program_len LAMBDAS fuel input_types st).1
  ∧ ∀ programs st0,
      is_Some (helper randbelow num_programs program_len LAMBDAS (S (Z.to_nat program_len))
                 {| input_types := input_types; statements := [] |} programs st0).
Proof.
  split; [|split; [apply restarts_NoDup | intros; apply helper_total; simpl; lia]].
  unfold gen_program_worker, restarts.
  apply (restart_loop_spec fuel _ ([], st) (res, st')).
Qed.
End RestartLoop.

(** With one function in the catalog there is one program of length 1 over
    a list input; from the first restart on, the result set and the state
    no longer change. *)
Lemma restarts_head_only n :
  restarts top_draw 2 1 [] (S n) [LIST] (start_state [HEAD])
  = ([head_program], {| ALL_FUNCTIONS := [HEAD]; rng := tt; progress_counter := 1 |}).
Proof.
  induction n as [|n IH]; [vm_compute; reflexivity|].
  unfold restarts in *. rewrite Nat.iter_succ, IH. vm_compute. reflexivity.
Qed.

(** C5 fails: asked for two programs where one exists, the worker is
    still in its loop whatever the number of restarts allowed. *)
Lemma worker_spins_below_quota :
  (∀ n, (restarts top_draw 2 1 [] n [LIST] (start_state [HEAD])).1 ⊆ [head_program])
  ∧ ¬ ∃ fuel res st',
      gen_program_worker top_draw 2 1 [] fuel [LIST] (start_state [HEAD]) = Some (res, st').
Proof.
  split.
  - intros [|n]; [vm_compute; apply list_subseteq_nil | by rewrite restarts_head_only].
  - intros (fuel & res & st' & Hrun). unfold gen_program_worker in Hrun.
    apply (restart_loop_spec top_draw 2 1 [] fuel _ ([], start_state [HEAD]) (res, st'))
      in Hrun as (n & _ & Hiter & Hmet & _).
    destruct n as [|n].
    + simpl in Hiter. injection Hiter as <- <-. simpl in Hmet. lia.
    + pose proof (restarts_head_only n) as Hfix. unfold restarts in Hfix.
      rewrite Hfix in Hiter. injection Hiter as <- <-. simpl in Hmet. lia.
Qed.

(** ** Dictionaries *)

Section DictFacts.
Context {K V : Type} `{EqDecision K}.
Implicit Types (d : list (K * V)) (k : K) (v : V).

Lemma dict_get_Some_elem_of k v d : dict_get k d = Some v → (k, v) ∈ d.
Proof.
  induction d as [|[k' v'] d IH]; simpl; [done|].
  case_decide as Hk.
  - intros [= ->]. subst k'. apply list_elem_of_here.
  - intros Hget. apply list_elem_of_further. by apply IH.
Qed.

Lemma dict_get_is_Some k d : k ∈ dict_keys d → is_Some (dict_get k d).
Proof.
  unfold dict_keys. induction d as [|[k' v'] d IH]; simpl.
  - intros Hin. by apply elem_of_nil in Hin.
  - intros [->|Hin]%elem_of_cons.
    + by rewrite decide_True.
    + case_decide; [done | by apply IH].
Qed.

Lemma dict_get_None k d : k ∉ dict_keys d → dict_get k d = None.
Proof.
  unfold dict_keys. induction d as [|[k' v'] d IH]; simpl; [done|].
  intros [Hne Hout]%not_elem_of_cons. rewrite decide_False by done. by apply IH.
Qed.

Lemma elem_of_dict_keys k v d : (k, v) ∈ d → k ∈ dict_keys d.
Proof. intros Hin. unfold dict_keys. apply list_elem_of_fmap. by exists (k, v). Qed.

(** With one entry per key, membership and lookup agree. *)
Lemma elem_of_dict_get k v d : NoDup (dict_keys d) → (k, v) ∈ d → dict_get k d = Some v.
Proof.
  unfold dict_keys. induction d as [|[k' v'] d IH]; simpl; intros Hnd Hin.
  - by apply elem_of_nil in Hin.
  - apply NoDup_cons in Hnd as [Hout Hnd].
    apply elem_of_cons in Hin as [[= -> ->]|Hin].
    + by rewrite decide_True.
    + rewrite decide_False; [by apply IH|]. intros ->.
      apply Hout. by eapply elem_of_dict_keys.
Qed.

Lemma dict_del_sublist k d : dict_del k d `sublist_of` d.
Proof.
  induction d as [|[k' v'] d IH]; simpl; [done|].
  case_decide; [by apply sublist_cons | by apply sublist_skip].
Qed.

Lemma dict_keys_sublist d d' : d' `sublist_of` d → dict_keys d' `sublist_of` dict_keys d.
Proof. intros Hsub. unfold dict_keys. by apply fmap_sublist. Qed.

Lemma dict_del_keys_ne k k' d :
  k' ≠ k → k' ∈ dict_keys d → k' ∈ dict_keys (dict_del k d).
Proof.
  unfold dict_keys. intros Hne. induction d as [|[k0 v0] d IH]; simpl; [done|].
  intros [->|Hin]%elem_of_cons.
  - rewrite decide_False by done. apply list_elem_of_here.
  - case_decide; [done|]. apply list_elem_of_further. by apply IH.
Qed.

Lemma dict_del_not_key k d : NoDup (dict_keys d) → k ∉ dict_keys (dict_del k d).
Proof.
  unfold dict_keys. induction d as [|[k0 v0] d IH]; simpl; intros Hnd.
  - apply not_elem_of_nil.
  - apply NoDup_cons in Hnd as [Hout Hnd]. case_decide as Hk.
    + by subst k0.
    + simpl. apply not_elem_of_cons. split; [done | by apply IH].
Qed.

Lemma dict_get_set k k' v d :
  dict_get k' (dict_set k v d) = if decide (k' = k) then Some v else dict_get k' d.
Proof.
  induction d as [|[k0 v0] d IH]; simpl.
  - by destruct (decide (k' = k)).
  - destruct (decide (k = k0)) as [->|Hne]; simpl.
    + by destruct (decide (k' = k0)).
    + destruct (decide (k' = k0)) as [->|Hne'].
      * by rewrite decide_False.
      * done.
Qed.

Lemma dict_set_keys k v d :
  dict_keys (dict_set k v d) = if decide (k ∈ dict_keys d) then dict_keys d
                               else dict_keys d ++ [k].
Proof.
  unfold dict_keys. induction d as [|[k0 v0] d IH]; csimpl.
  - destruct (decide (k ∈ [])) as [Hin|_]; [by apply elem_of_nil in Hin | done].
  - destruct (decide (k = k0)) as [->|Hne]; csimpl.
    + destruct (decide (k0 ∈ k0 :: d.*1)) as [_|Hout]; [done|].
      exfalso. apply Hout, list_elem_of_here.
    + rewrite IH.
      destruct (decide (k ∈ d.*1)) as [Hin|Hout];
        destruct (decide (k ∈ k0 :: d.*1)) as [Hin'|Hout']; try done.
      * exfalso. apply Hout'. by apply list_elem_of_further.
      * exfalso. apply elem_of_cons in Hin' as [?|?]; done.
Qed.

Lemma dict_set_NoDup k v d : NoDup (dict_keys d) → NoDup (dict_keys (dict_set k v d)).
Proof.
  intros Hnd. rewrite dict_set_keys. case_decide as Hk; [done|].
  apply NoDup_app. repeat split; [done| |apply NoDup_singleton].
  intros x Hx ->%list_elem_of_singleton. done.
Qed.

Lemma elem_of_dict_set k v k' v' d :
  (k', v') ∈ dict_set k v d → (k', v') = (k, v) ∨ (k', v') ∈ d.
Proof.
  induction d as [|[k0 v0] d IH]; simpl.
  - intros ->%list_elem_of_singleton. by left.
  - case_decide as Hk.
    + subst k0. intros [->|Hin]%elem_of_cons; [by left|].
      right. by apply list_elem_of_further.
    + intros [->|Hin]%elem_of_cons; [right; apply list_elem_of_here|].
      destruct (IH Hin) as [?|?]; [by left | right; by apply list_elem_of_further].
Qed.

(** What [d.update(d2)] can hold under a key. *)
Lemma dict_get_update k v d d2 :
  dict_get k (dict_update d d2) = Some v → dict_get k d = Some v ∨ (k, v) ∈ d2.
Proof.
  unfold dict_update. revert d. induction d2 as [|[k2 v2] d2 IH]; intros d; simpl.
  - by left.
  - intros Hget. destruct (IH _ Hget) as [Hd|Hin].
    + rewrite dict_get_set in Hd. case_decide as Hk.
      * injection Hd as ->. subst k2. right. apply list_elem_of_here.
      * by left.
    + right. by apply list_elem_of_further.
Qed.

Lemma dict_get_update_other k d d2 :
  k ∉ dict_keys d2 → dict_get k (dict_update d d2) = dict_get k d.
Proof.
  unfold dict_update, dict_keys. revert d.
  induction d2 as [|[k2 v2] d2 IH]; intros d; simpl; [done|].
  intros [Hne Hout]%not_elem_of_cons. rewrite IH by done.
  rewrite dict_get_set. by rewrite decide_False.
Qed.
End DictFacts.

(** ** Corpus-mode deduplication *)

Section Deduplication.
Context {Example : Type} (is_same : Program → Program → list Example → bool).
Implicit Types (d : list (Program * list Example)).

(** The scan either leaves the dictionary as it is, no program of
    [others] being judged the same, or deletes the one key. *)
Lemma discard_scan_spec program others d d' :
  discard_scan is_same program others d = Some d' →
  (d' = d ∧ ∀ ex other, dict_get program d = Some ex → other ∈ others →
                        is_same program other ex = false)
  ∨ d' = dict_del program d.
Proof.
  induction others as [|other rest IH]; simpl.
  - intros [= <-]. left. split; [done|]. intros ex o _ Ho. by apply elem_of_nil in Ho.
  - destruct (dict_get program d) as [ex0|] eqn:Hget; simpl; [|done].
    destruct (is_same program other ex0) eqn:Hsame.
    + intros [= <-]. by right.
    + intros Hrest. destruct (IH Hrest) as [[-> Hall] | ->]; [left | by right].
      split; [done|]. intros ex o [= <-] [->|Ho]%elem_of_cons; [done|]. by eapply Hall.
Qed.

Lemma discard_scan_total program others d :
  program ∈ dict_keys d → is_Some (discard_scan is_same program others d).
Proof.
  intros [ex Hget]%dict_get_is_Some.
  induction others as [|other rest IH]; simpl; [done|].
  rewrite Hget. simpl. by destruct (is_same program other ex).
Qed.

Lemma discard_loop_sublist existing new_programs d d' :
  discard_loop is_same existing new_programs d = Some d' → d' `sublist_of` d.
Proof.
  revert d. induction new_programs as [|program rest IH]; intros d; simpl.
  - by intros [= <-].
  - destruct (discard_scan is_same program existing d) as [d1|] eqn:Hscan; simpl; [|done].
    intros Hrest. transitivity d1; [by apply IH|].
    destruct (discard_scan_spec _ _ _ _ Hscan) as [[-> _] | ->];
      [done | apply dict_del_sublist].
Qed.

Lemma discard_loop_total existing new_programs d :
  NoDup new_programs → new_programs ⊆ dict_keys d →
  is_Some (discard_loop is_same existing new_programs d).
Proof.
  revert d. induction new_programs as [|program rest IH]; intros d Hnd Hsub; simpl; [done|].
  apply NoDup_cons in Hnd as [Hout Hnd].
  destruct (discard_scan_total program existing d) as [d1 Hscan].
  { apply Hsub, list_elem_of_here. }
  rewrite Hscan. simpl. apply IH; [done|].
  intros q Hq. assert (Hqd : q ∈ dict_keys d) by (apply Hsub; by apply list_elem_of_further).
  destruct (discard_scan_spec _ _ _ _ Hscan) as [[-> _] | ->]; [done|].
  apply dict_del_keys_ne; [|done]. by intros ->.
Qed.

(** A survivor of the loop was compared with its own examples against
    every existing program and judged different from each. *)
Lemma discard_loop_survivors existing new_programs d d' p ex :
  NoDup (dict_keys d) →
  discard_loop is_same existing new_programs d = Some d' →
  (p, ex) ∈ d' → p ∈ new_programs →
  ∀ other, other ∈ existing → is_same p other ex = false.
Proof.
  revert d. induction new_programs as [|program rest IH]; intros d Hnd; simpl.
  - intros _ _ Hp. by apply elem_of_nil in Hp.
  - destruct (discard_scan is_same program existing d) as [d1|] eqn:Hscan; simpl; [|done].
    intros Hrest Hin Hp.
    assert (Hnd1 : NoDup (dict_keys d1)).
    { destruct (discard_scan_spec _ _ _ _ Hscan) as [[-> _] | ->]; [done|].
      apply (sublist_NoDup (dict_keys (dict_del program d)) (dict_keys d));
        [exact Hnd | apply dict_keys_sublist, dict_del_sublist]. }
    assert (Hin1 : (p, ex) ∈ d1).
    { eapply elem_of_sublist; [exact Hin|]. by eapply discard_loop_sublist. }
    destruct (decide (p = program)) as [->|Hne].
    + destruct (discard_scan_spec _ _ _ _ Hscan) as [[-> Hall] | ->].
      * intros other Hother. eapply Hall; [|done]. by apply elem_of_dict_get.
      * exfalso. apply (dict_del_not_key program d Hnd). by eapply elem_of_dict_keys.
    + apply elem_of_cons in Hp as [?|Hp]; [done|]. by eapply IH.
Qed.

(** C10: [discard_identical_worker] returns its input with some entries
    deleted: no key is new, and every surviving program keeps its
    example list. *)
Theorem discard_identical_worker_only_removes existing d :
  NoDup (dict_keys d) →
  ∃ d', discard_identical_worker is_same existing d = Some d'
    ∧ d' `sublist_of` d
    ∧ dict_keys d' ⊆ dict_keys d
    ∧ ∀ p ex, dict_get p d' = Some ex → dict_get p d = Some ex.
Proof.
  intros Hnd. unfold discard_identical_worker.
  destruct (discard_loop_total existing (dict_keys d) d Hnd) as [d' Hrun]; [done|].
  pose proof (discard_loop_sublist _ _ _ _ Hrun) as Hsub.
  exists d'. split; [done|]. split; [done|]. split.
  - apply sublist_subseteq. by apply dict_keys_sublist.
  - intros p ex Hget%dict_get_Some_elem_of. apply elem_of_dict_get; [done|].
    by eapply elem_of_sublist.
Qed.
End Deduplication.

Lemma discard_identical_worker_only_removes_witness :
  ∃ d', discard_identical_worker same_last [reverse_maximum]
          [(sort_maximum, [2%nat]); (sort_head, [3%nat])] = Some d'
    ∧ d' `sublist_of` [(sort_maximum, [2%nat]); (sort_head, [3%nat])]
    ∧ dict_keys d' ⊆ [sort_maximum; sort_head]
    ∧ ∀ p ex, dict_get p d' = Some ex →
              dict_get p [(sort_maximum, [2%nat]); (sort_head, [3%nat])] = Some ex.
Proof.
  apply (discard_identical_worker_only_removes same_last [reverse_maximum]
           [(sort_maximum, [2%nat]); (sort_head, [3%nat])]).
  apply (bool_decide_unpack _). vm_compute. exact I.
Defined.

Example discard_identical_worker_run :
  discard_identical_worker same_last [reverse_maximum]
    [(sort_maximum, [2%nat]); (sort_head, [3%nat])] = Some [(sort_head, [3%nat])].
Proof. vm_compute. reflexivity. Qed.

(** ** Merging a batch into the corpus *)

Lemma slice_from_step_subseteq {A} (i n : nat) (l : list A) : slice_from_step i n l ⊆ l.
Proof.
  intros x (j & _ & Hx)%list_elem_of_omap. by eapply list_elem_of_lookup_2.
Qed.

Section Merge.
Context {Example : Type} (is_same : Program → Program → list Example → bool).
Implicit Types (d acc part new_examples examples merged : list (Program * list Example)).

Lemma dict_part_spec new_examples programs acc part :
  dict_part new_examples programs acc = Some part →
  shard_of new_examples acc → shard_of new_examples part.
Proof.
  revert acc. induction programs as [|p rest IH]; intros acc; simpl.
  - by intros [= <-].
  - destruct (dict_get p new_examples) as [ex|] eqn:Hget; simpl; [|done].
    intros Hrest [Hnd Hacc]. apply (IH _ Hrest). split.
    + by apply dict_set_NoDup.
    + intros q exq [[= -> ->]|Hin]%elem_of_dict_set; [done | by apply Hacc].
Qed.

Lemma dict_part_total new_examples programs acc :
  programs ⊆ dict_keys new_examples → is_Some (dict_part new_examples programs acc).
Proof.
  revert acc. induction programs as [|p rest IH]; intros acc Hsub; simpl; [done|].
  destruct (dict_get_is_Some p new_examples) as [ex ->].
  { apply Hsub, list_elem_of_here. }
  simpl. apply IH. intros q Hq. by apply Hsub, list_elem_of_further.
Qed.

Lemma shard_of_nil new_examples : shard_of new_examples [].
Proof. split; [constructor|]. intros p ex Hin. by apply elem_of_nil in Hin. Qed.

Lemma shard_of_keys new_examples part :
  shard_of new_examples part → dict_keys part ⊆ dict_keys new_examples.
Proof.
  intros [_ Hpart] p (kv & -> & Hin)%list_elem_of_fmap. destruct kv as [q ex].
  eapply elem_of_dict_keys, dict_get_Some_elem_of. by apply Hpart.
Qed.

Lemma foldl_dict_update_get (e : list (Program * list Example)) res p ex :
  dict_get p (foldl dict_update e res) = Some ex →
  dict_get p e = Some ex ∨ ∃ d, d ∈ res ∧ (p, ex) ∈ d.
Proof.
  revert e. induction res as [|d res IH]; intros e; simpl; [by left|].
  intros Hget. destruct (IH _ Hget) as [He|(d0 & Hd0 & Hin)].
  - apply dict_get_update in He as [He|Hin]; [by left|].
    right. exists d. split; [apply list_elem_of_here | done].
  - right. exists d0. split; [by apply list_elem_of_further | done].
Qed.

Lemma foldl_dict_update_other (e : list (Program * list Example)) res p :
  (∀ d, d ∈ res → p ∉ dict_keys d) →
  dict_get p (foldl dict_update e res) = dict_get p e.
Proof.
  revert e. induction res as [|d res IH]; intros e Hout; simpl; [done|].
  rewrite IH.
  - apply dict_get_update_other, Hout, list_elem_of_here.
  - intros d0 Hd0. by apply Hout, list_elem_of_further.
Qed.

(** What the pool hands back: one deduplicated shard per worker. *)
Lemma merge_batch_unfold num_workers examples new_examples merged :
  merge_batch is_same num_workers examples new_examples = Some merged →
  ∃ res, merged = foldl dict_update examples res
    ∧ ∀ d, d ∈ res → ∃ part, shard_of new_examples part
        ∧ discard_identical_worker is_same (dict_keys examples) part = Some d.
Proof.
  unfold merge_batch. case_bool_decide; [done|].
  destruct (mapM _ (_ <$> _)) as [parts|] eqn:Hparts; simpl; [|done].
  destruct (mapM _ parts) as [res|] eqn:Hres; simpl; [|done].
  intros [= <-]. exists res. split; [done|]. intros d Hd.
  apply mapM_Some_1 in Hres, Hparts.
  apply list_elem_of_lookup in Hd as (n & Hn).
  destruct (Forall2_lookup_r _ _ _ _ _ Hres Hn) as (part & Hpart & Hrun).
  destruct (Forall2_lookup_r _ _ _ _ _ Hparts Hpart) as (programs & _ & Hbuild).
  exists part. split; [|done].
  eapply dict_part_spec; [exact Hbuild | apply shard_of_nil].
Qed.

(** C2, as the code has it: after a merge, an entry of the corpus is an
    entry the corpus already had, or an entry of the batch whose program
    was judged, on its own examples, different from every program the
    corpus held before the batch.  Programs of one batch are not
    compared with each other. *)
Theorem merged_programs_differ_from_earlier num_workers examples new_examples merged p ex :
  merge_batch is_same num_workers examples new_examples = Some merged →
  dict_get p merged = Some ex →
  dict_get p examples = Some ex
  ∨ (dict_get p new_examples = Some ex
     ∧ ∀ other, other ∈ dict_keys examples → is_same p other ex = false).
Proof.
  intros (res & -> & Hres)%merge_batch_unfold Hget.
  apply foldl_dict_update_get in Hget as [He|(d & Hd & Hin)]; [by left|]. right.
  destruct (Hres d Hd) as (part & [Hnd Hpart] & Hrun).
  unfold discard_identical_worker in Hrun.
  assert (Hin' : (p, ex) ∈ part).
  { eapply elem_of_sublist; [exact Hin|]. by eapply discard_loop_sublist. }
  split; [by apply Hpart|].
  eapply discard_loop_survivors; [exact Hnd | exact Hrun | exact Hin |].
  by eapply elem_of_dict_keys.
Qed.
End Merge.

(** C2 fails: two programs of one batch that the oracle judges equivalent,
    on the examples of either, are both merged into the corpus. *)
Lemma same_batch_equivalents_both_kept :
  ∃ corpus ex1 ex2,
    main_corpus same_last toy_gen_programs 5 5 2 1
      toy_json_loads toy_program_parse toy_examples None = ([1; 2], Some corpus)
    ∧ dict_get reverse_maximum corpus = Some ex1
    ∧ dict_get sort_maximum corpus = Some ex2
    ∧ reverse_maximum ≠ sort_maximum
    ∧ same_last reverse_maximum sort_maximum ex1 = true
    ∧ same_last sort_maximum reverse_maximum ex2 = true.
Proof.
  exists maximum_batch, [1%nat], [2%nat].
  repeat split; try (vm_compute; reflexivity). discriminate.
Qed.

Lemma merged_programs_differ_from_earlier_witness :
  dict_get sort_maximum [(head_program, [7%nat])] = Some [2%nat]
  ∨ (dict_get sort_maximum [(sort_maximum, [2%nat]); (sort_head, [3%nat])] = Some [2%nat]
     ∧ ∀ other, other ∈ dict_keys [(head_program, [7%nat])] →
                same_last sort_maximum other [2%nat] = false).
Proof.
  eapply (merged_programs_differ_from_earlier same_last 2 [(head_program, [7%nat])]
            [(sort_maximum, [2%nat]); (sort_head, [3%nat])]).
  - vm_compute. reflexivity.
  - vm_compute. reflexivity.
Defined.

Example merge_batch_run :
  merge_batch same_last 2 [(head_program, [7%nat])]
    [(sort_maximum, [2%nat]); (sort_head, [3%nat])]
  = Some [(head_program, [7%nat]); (sort_maximum, [2%nat])].
Proof. vm_compute. reflexivity. Qed.

(** ** Resuming from a cache *)

Lemma foldl_max_le (l : list nat) (x y : nat) :
  (y ≤ x)%nat ∨ y ∈ l → (y ≤ foldl Nat.max x l)%nat.
Proof.
  revert x. induction l as [|z l IH]; intros x; simpl.
  - intros [Hle|Hin]; [done | by apply elem_of_nil in Hin].
  - intros [Hle|[->|Hin]%elem_of_cons]; apply IH; [left; lia | left; lia | by right].
Qed.

Lemma py_max_bound (l : list nat) (k x : nat) : py_max l = Some k → x ∈ l → (x ≤ k)%nat.
Proof.
  destruct l as [|y l]; simpl; [done|]. intros [= <-] [->|Hin]%elem_of_cons.
  - apply foldl_max_le. by left.
  - apply foldl_max_le. by right.
Qed.

Section Resume.
Context {Example Json : Type}.
Context (is_same : Program → Program → list Example → bool).
Context (gen_programs : Z → Z → list (Program * list Example)).
Context (num_train num_test max_train_len num_workers : Z).
Context (json_loads : string → option Json).
Context (Program_parse : Json → option Program).
Context (Example_from_line : Json → option (list Example)).
Implicit Types (examples new_examples merged cache final : list (Program * list Example)).

Lemma merge_batch_total examples new_examples :
  1 ≤ num_workers → is_Some (merge_batch is_same num_workers examples new_examples).
Proof.
  intros Hw. unfold merge_batch. rewrite bool_decide_eq_false_2 by lia.
  destruct (mapM (λ programs, dict_part new_examples programs [])
              ((λ i, slice_from_step i (Z.to_nat num_workers) (dict_keys new_examples))
                 <$> seq 0 (Z.to_nat num_workers))) as [parts|] eqn:Hparts.
  - simpl. destruct (mapM_is_Some_2
      (discard_identical_worker is_same (dict_keys examples)) parts) as [res ->]; [|done].
    apply Forall_forall. intros part Hpart. simpl.
    apply mapM_Some_1 in Hparts.
    apply list_elem_of_lookup in Hpart as (n & Hn).
    destruct (Forall2_lookup_r _ _ _ _ _ Hparts Hn) as (programs & _ & Hbuild).
    destruct (dict_part_spec _ _ _ _ Hbuild (shard_of_nil _)) as [Hnd _].
    by apply discard_loop_total.
  - exfalso. apply mapM_None_1, Exists_exists in Hparts as (programs & Hin & Hnone).
    apply list_elem_of_fmap in Hin as (i & -> & _).
    destruct (dict_part_total new_examples
                (slice_from_step i (Z.to_nat num_workers) (dict_keys new_examples)) [])
      as [part Hpart]; [apply slice_from_step_subseteq | congruence].
Qed.

(** A merge does not touch the entries under keys outside the batch. *)
Lemma merge_batch_frame examples new_examples merged p :
  merge_batch is_same num_workers examples new_examples = Some merged →
  p ∉ dict_keys new_examples → dict_get p merged = dict_get p examples.
Proof.
  intros (res & -> & Hres)%merge_batch_unfold Hout.
  apply foldl_dict_update_other. intros d Hd Hin.
  destruct (Hres d Hd) as (part & Hshard & Hrun). apply Hout.
  apply (shard_of_keys _ _ Hshard).
  eapply elem_of_sublist; [exact Hin|].
  apply dict_keys_sublist. by eapply discard_loop_sublist.
Qed.

Context (num_workers_pos : 1 ≤ num_workers).
Context (gen_programs_length : ∀ l n p,
  p ∈ dict_keys (gen_programs l n) → Z.of_nat (len p) = l).

(** Generating for lengths above [k] leaves the programs of length at
    most [k] as they are, and logs exactly the lengths asked for. *)
Lemma length_loop_frame lens examples log (k : nat) :
  (∀ l, l ∈ lens → Z.of_nat k < l) →
  ∃ final,
    length_loop is_same gen_programs num_train num_test num_workers lens examples log
      = (log ++ lens, Some final)
    ∧ ∀ p, (len p ≤ k)%nat → dict_get p final = dict_get p examples.
Proof.
  revert examples log. induction lens as [|l lens IH]; intros examples log Hlens; simpl.
  - exists examples. by rewrite app_nil_r.
  - destruct (merge_batch_total examples
                (gen_programs l (quota num_train num_test l)) num_workers_pos)
      as [merged Hmerge].
    rewrite Hmerge.
    destruct (IH merged (log ++ [l])) as (final & Hrun & Hframe).
    { intros l' Hl'. by apply Hlens, list_elem_of_further. }
    exists final. rewrite Hrun, <- (assoc_L (++)). split; [done|].
    intros p Hp. rewrite Hframe by done.
    eapply merge_batch_frame; [exact Hmerge|].
    intros Hin%gen_programs_length.
    specialize (Hlens l (list_elem_of_here _ _)). lia.
Qed.

(** C6: resumed from a cache whose longest program has [k] statements,
    the builder generates for the lengths [k+1 .. max_train_len] and no
    other, and the entries of the cache, and all entries of length at
    most [k], are in the final corpus as they were loaded. *)
Theorem resume_keeps_cached_lengths file_lines cache (k : nat) :
  load_cache json_loads Program_parse Example_from_line file_lines = Some cache →
  py_max (len <$> dict_keys cache) = Some k →
  ∃ final,
    main_corpus is_same gen_programs num_train num_test max_train_len num_workers
      json_loads Program_parse Example_from_line (Some file_lines)
      = (seqZ (Z.of_nat k + 1) (max_train_len - Z.of_nat k), Some final)
    ∧ (∀ p ex, dict_get p cache = Some ex → dict_get p final = Some ex)
    ∧ (∀ p, (len p ≤ k)%nat → dict_get p final = dict_get p cache).
Proof.
  intros Hload Hmax. unfold main_corpus. rewrite Hload, Hmax.
  destruct (length_loop_frame
              (seqZ (Z.of_nat k + 1) (max_train_len - Z.of_nat k)) cache [] k)
    as (final & Hrun & Hframe).
  { intros l Hl%elem_of_seqZ. lia. }
  exists final. split; [done|]. split; [|done].
  intros p ex Hget. rewrite Hframe; [done|].
  eapply py_max_bound; [exact Hmax|].
  apply list_elem_of_fmap. exists p. split; [done|].
  by eapply elem_of_dict_keys, dict_get_Some_elem_of.
Qed.

(** ** Malformed caches *)

Lemma load_cache_loop_malformed (lines : list Json) (j : Json) examples :
  j ∈ lines → Program_parse j = None ∨ Example_from_line j = None →
  load_cache_loop Program_parse Example_from_line lines examples = None.
Proof.
  intros Hin Hbad. revert examples.
  induction lines as [|j0 lines IH]; intros examples; [by apply elem_of_nil in Hin|].
  simpl. apply elem_of_cons in Hin as [<-|Hin].
  - destruct Hbad as [-> | Hbad]; [done|].
    destruct (Program_parse j); simpl; [by rewrite Hbad | done].
  - destruct (Program_parse j0); simpl; [|done].
    destruct (Example_from_line j0); simpl; [by apply IH | done].
Qed.

(** C8: one malformed record makes [load_cache] raise, and then [main]
    stops before it generates for any length. *)
Theorem malformed_cache_stops_everything file_lines line :
  line ∈ file_lines →
  malformed json_loads Program_parse Example_from_line line →
  load_cache json_loads Program_parse Example_from_line file_lines = None
  ∧ main_corpus is_same gen_programs num_train num_test max_train_len num_workers
      json_loads Program_parse Example_from_line (Some file_lines) = ([], None).
Proof.
  intros Hin Hbad.
  assert (Hload : load_cache json_loads Program_parse Example_from_line file_lines = None).
  { unfold load_cache, malformed in *.
    destruct (mapM json_loads file_lines) as [lines|] eqn:Hlines; simpl; [|done].
    apply mapM_Some_1 in Hlines.
    apply list_elem_of_lookup in Hin as (n & Hn).
    destruct (Forall2_lookup_l _ _ _ _ _ Hlines Hn) as (j & Hj & Hparse).
    rewrite Hparse in Hbad.
    eapply load_cache_loop_malformed; [|exact Hbad]. by eapply list_elem_of_lookup_2. }
  split; [done|]. unfold main_corpus. by rewrite Hload.
Qed.
End Resume.

Lemma toy_gen_programs_length l n p :
  p ∈ dict_keys (toy_gen_programs l n) → Z.of_nat (len p) = l.
Proof.
  unfold toy_gen_programs. case_decide as Hl; simpl.
  - intros [->|[->|Hnil]%elem_of_cons]%elem_of_cons; [by subst l..|].
    by apply elem_of_nil in Hnil.
  - intros Hnil. by apply elem_of_nil in Hnil.
Qed.

Lemma resume_keeps_cached_lengths_witness :
  ∃ final,
    main_corpus same_last toy_gen_programs 5 5 2 2
      toy_json_loads toy_program_parse toy_examples (Some one_line_cache)
      = (seqZ (Z.of_nat 1 + 1) (2 - Z.of_nat 1), Some final)
    ∧ (∀ p ex, dict_get p [(head_program, [7%nat])] = Some ex → dict_get p final = Some ex)
    ∧ (∀ p, (len p ≤ 1)%nat → dict_get p final = dict_get p [(head_program, [7%nat])]).
Proof.
  apply (resume_keeps_cached_lengths same_last toy_gen_programs 5 5 2 2
           toy_json_loads toy_program_parse toy_examples).
  - lia.
  - apply toy_gen_programs_length.
  - vm_compute. reflexivity.
  - vm_compute. reflexivity.
Defined.

Example resume_run :
  main_corpus same_last toy_gen_programs 5 5 2 2
    toy_json_loads toy_program_parse toy_examples (Some one_line_cache)
  = ([2], Some ((head_program, [7%nat]) :: maximum_batch)).
Proof. vm_compute. reflexivity. Qed.

Lemma malformed_cache_stops_everything_witness :
  load_cache toy_json_loads toy_program_parse toy_examples broken_cache = None
  ∧ main_corpus same_last toy_gen_programs 5 5 2 2
      toy_json_loads toy_program_parse toy_examples (Some broken_cache) = ([], None).
Proof.
  apply (malformed_cache_stops_everything same_last toy_gen_programs 5 5 2 2
           toy_json_loads toy_program_parse toy_examples broken_cache "tail").
  - apply (bool_decide_unpack _). vm_compute. exact I.
  - left. vm_compute. reflexivity.
Defined.

(** ** Bucket-mode deduplication *)

(** C3, on the code: with [reverse_maximum] accepted first, the scan skips
    [sort_head] because its offset 0 is already in the set, judges
    [sort_maximum] the same as [reverse_maximum], and marks offset 1, the
    position of [sort_head].  [sort_maximum] is then accepted as a test
    program as well, and [sort_head] reaches neither the test programs nor
    the training pool. *)
Theorem bucket_marks_offset_not_position :
  mark_equivalent same_last bucket_examples reverse_maximum
    (enumerate (drop 1 bucket)) {[0%nat]} = Some {[0%nat; 1%nat]}
  ∧ test_round same_last 3 top_draw tt bucket_examples 2 bucket
    = Some ([reverse_maximum; sort_maximum], [], tt)
  ∧ same_last reverse_maximum sort_maximum [1%nat] = true
  ∧ same_last reverse_maximum sort_head [1%nat] = false.
Proof. repeat split; vm_compute; reflexivity. Qed.

(** * Further properties of the code *)

(** ** Input-type signatures *)

Lemma length_bind_singleton {A B} (f : A → B) (l : list A) :
  length (l ≫= λ x, [f x]) = length l.
Proof. induction l as [|x l IH]; [done|]. rewrite bind_cons, length_app, IH. done. Qed.

Lemma get_input_type_combinations_S (k : nat) :
  get_input_type_combinations (Z.of_nat (S k))
  = get_input_type_combinations (Z.of_nat k)
    ++ (seqZ 1 (Z.of_nat (S k)) ≫= λ num_list,
          [replicate (Z.to_nat num_list) LIST
           ++ replicate (Z.to_nat (Z.of_nat (S k) - num_list)) INT]).
Proof.
  unfold get_input_type_combinations.
  rewrite (seqZ_S 1 k) at 1. rewrite bind_app, bind_singleton.
  by replace (1 + Z.of_nat k) with (Z.of_nat (S k)) by lia.
Qed.

Lemma get_input_type_combinations_to_nat (num_inputs : Z) :
  get_input_type_combinations num_inputs
  = get_input_type_combinations (Z.of_nat (Z.to_nat num_inputs)).
Proof.
  unfold get_input_type_combinations.
  destruct (decide (0 ≤ num_inputs)) as [Hpos|Hneg].
  - by rewrite Z2Nat.id.
  - rewrite !seqZ_nil; [done | lia | lia].
Qed.

(** [get_input_type_combinations(n)] returns n(n+1)/2 signatures, and none
    when [n] is not positive. *)
Theorem input_type_combinations_count (num_inputs : Z) :
  2 * Z.of_nat (length (get_input_type_combinations num_inputs))
  = Z.max 0 num_inputs * (Z.max 0 num_inputs + 1).
Proof.
  rewrite get_input_type_combinations_to_nat.
  replace (Z.max 0 num_inputs) with (Z.of_nat (Z.to_nat num_inputs)) by lia.
  induction (Z.to_nat num_inputs) as [|k IH]; [done|].
  rewrite get_input_type_combinations_S, length_app, length_bind_singleton, length_seqZ.
  lia.
Qed.

Lemma replicate_split_inj {A} (x y : A) (a b m1 m2 : nat) :
  x ≠ y →
  replicate a x ++ replicate m1 y = replicate b x ++ replicate m2 y → a = b.
Proof.
  intros Hxy. revert b. induction a as [|a IH]; intros [|b]; simpl; intros Heq.
  - done.
  - destruct m1; simpl in Heq; [done|]. injection Heq as Hyx _. congruence.
  - destruct m2; simpl in Heq; [done|]. injection Heq as Hyx _. congruence.
  - injection Heq as Heq. f_equal. by apply IH.
Qed.

Lemma elem_of_signatures_of_length (n : Z) (sig : list DslType) :
  sig ∈ (seqZ 1 n ≫= λ num_list,
           [replicate (Z.to_nat num_list) LIST ++ replicate (Z.to_nat (n - num_list)) INT]) →
  ∃ a b, (1 ≤ a)%nat ∧ Z.of_nat (a + b) = n
         ∧ sig = replicate a LIST ++ replicate b INT.
Proof.
  intros (num_list & ->%list_elem_of_singleton & Hl%elem_of_seqZ)%list_elem_of_bind.
  exists (Z.to_nat num_list), (Z.to_nat (n - num_list)). split; [lia|]. split; [lia | done].
Qed.

(** The signatures are pairwise distinct; each has between one and [n]
    slots, at least one LIST slot, and its LIST slots before its INT slots. *)
Theorem input_type_combinations_distinct (num_inputs : Z) :
  NoDup (get_input_type_combinations num_inputs)
  ∧ Forall (λ sig, ∃ a b, (1 ≤ a)%nat ∧ Z.of_nat (a + b) ≤ num_inputs
                          ∧ sig = replicate a LIST ++ replicate b INT)
           (get_input_type_combinations num_inputs).
Proof.
  split.
  - unfold get_input_type_combinations. apply NoDup_bind; [| |apply NoDup_seqZ].
    + intros n1 n2 sig _ _ H1 H2.
      apply elem_of_signatures_of_length in H1 as (a1 & b1 & _ & Hn1 & ->).
      apply elem_of_signatures_of_length in H2 as (a2 & b2 & _ & Hn2 & Heq).
      apply (f_equal length) in Heq. rewrite !length_app, !length_replicate in Heq. lia.
    + intros n Hn%elem_of_seqZ. apply NoDup_bind; [| |apply NoDup_seqZ].
      * intros l1 l2 sig Hl1%elem_of_seqZ Hl2%elem_of_seqZ
          ->%list_elem_of_singleton Heq%list_elem_of_singleton.
        assert (Z.to_nat l1 = Z.to_nat l2); [|lia].
        by eapply (replicate_split_inj LIST INT).
      * intros l _. apply NoDup_singleton.
  - apply Forall_forall. intros sig Hsig. unfold get_input_type_combinations in Hsig.
    apply list_elem_of_bind in Hsig as (n & Hsig & Hn%elem_of_seqZ).
    apply elem_of_signatures_of_length in Hsig as (a & b & Ha & Hab & ->).
    exists a, b. split; [done|]. split; [lia | done].
Qed.

(** ** The candidate tuples of a function *)

Lemma elem_of_product_2 {A} (r : list A) (ls : list (list A)) :
  Forall2 (λ x l, x ∈ l) r ls → r ∈ product ls.
Proof.
  induction 1 as [|x l r ls Hx _ IH]; simpl; [apply list_elem_of_here|].
  apply list_elem_of_bind. exists x. split; [|done].
  apply list_elem_of_bind. exists r. split; [apply list_elem_of_here | done].
Qed.

Lemma length_bind_uniform {A B} (f : A → list B) (l : list A) (m : nat) :
  (∀ x, length (f x) = m) → length (l ≫= f) = (length l * m)%nat.
Proof.
  intros Hf. induction l as [|x l IH]; [done|].
  rewrite bind_cons, length_app, IH, Hf. simpl. lia.
Qed.

Lemma length_product {A} (ls : list (list A)) :
  length (product ls) = foldr Nat.mul 1%nat (length <$> ls).
Proof.
  induction ls as [|l ls IH]; [done|]. simpl.
  rewrite (length_bind_uniform _ l (length (product ls))); [by rewrite IH|].
  intros x. by rewrite length_bind_singleton.
Qed.

Lemma elem_of_iterate_inputs (f : Function) (type_to_vars : TypeToVars) args :
  args ∈ iterate_inputs f type_to_vars
  ↔ Forall2 (λ a t, a ∈ type_to_vars t) args (slot_types f).
Proof.
  unfold iterate_inputs. fold (slot_types f). split.
  - intros Hargs%elem_of_product.
    exact (proj1 (Forall2_fmap_r type_to_vars (λ (x : arg) l, x ∈ l) args (slot_types f)) Hargs).
  - intros Hargs. apply elem_of_product_2.
    exact (proj2 (Forall2_fmap_r type_to_vars (λ (x : arg) l, x ∈ l) args (slot_types f)) Hargs).
Qed.

(** [iterate_inputs] yields exactly the tuples that fill every slot of the
    function from the candidate list of the slot's type, and as many of
    them as the product of the lengths of those lists. *)
Theorem iterate_inputs_complete (f : Function) (type_to_vars : TypeToVars) :
  (∀ args, args ∈ iterate_inputs f type_to_vars
           ↔ Forall2 (λ a t, a ∈ type_to_vars t) args (slot_types f))
  ∧ length (iterate_inputs f type_to_vars)
    = foldr Nat.mul 1%nat ((λ t, length (type_to_vars t)) <$> slot_types f).
Proof.
  split; [intros args; apply elem_of_iterate_inputs|].
  unfold iterate_inputs. fold (slot_types f).
  rewrite length_product. by rewrite <- list_fmap_compose.
Qed.

(** ** The order of the candidates *)

Lemma filter_ext_in {A} (P Q : A → Prop) `{∀ x, Decision (P x), ∀ x, Decision (Q x)}
    (l : list A) :
  (∀ x, x ∈ l → (P x ↔ Q x)) → filter P l = filter Q l.
Proof.
  induction l as [|x l IH]; intros Hext; [done|].
  rewrite !filter_cons.
  destruct (decide (P x)) as [HP|HP], (decide (Q x)) as [HQ|HQ].
  - f_equal. apply IH. intros y Hy. by apply Hext, list_elem_of_further.
  - exfalso. apply HQ, (Hext x); [apply list_elem_of_here | done].
  - exfalso. apply HP, (Hext x); [apply list_elem_of_here | done].
  - apply IH. intros y Hy. by apply Hext, list_elem_of_further.
Qed.

(** Lines 90-92 list the variables of a type newest first: the indices
    whose type it is, in decreasing order. *)
Theorem index_vars_newest_first (vts : list DslType) (t : DslType) :
  index_vars vts t
  = Var <$> reverse (filter (λ i, vts !! i = Some t) (seq 0 (length vts))).
Proof.
  induction vts as [|t0 vts IH] using rev_ind; [done|].
  rewrite index_vars_snoc, length_app. simpl.
  rewrite Nat.add_1_r, seq_S, filter_app. simpl.
  rewrite (filter_ext_in (λ i, (vts ++ [t0]) !! i = Some t) (λ i, vts !! i = Some t)
             (seq 0 (length vts))).
  2:{ intros i Hi%elem_of_seq. by rewrite lookup_app_l by lia. }
  rewrite filter_cons, filter_nil.
  rewrite lookup_app_r by lia. rewrite Nat.sub_diag. simpl.
  destruct (decide (t0 = t)) as [->|Hne].
  - rewrite fn_lookup_insert. rewrite decide_True by done.
    by rewrite reverse_app, IH.
  - rewrite fn_lookup_insert_ne by done. rewrite decide_False by congruence.
    by rewrite app_nil_r.
Qed.

Lemma length_filter_split (free_indxs : gset nat) (l : list arg) :
  (length (filter (λ a, arg_in a free_indxs = true) l)
   + length (filter (λ a, arg_in a free_indxs = false) l))%nat = length l.
Proof.
  induction l as [|a l IH]; [done|]. rewrite !filter_cons.
  destruct (arg_in a free_indxs) eqn:Ha.
  - rewrite decide_True, decide_False by done. simpl. lia.
  - rewrite decide_False, decide_True by done. simpl. lia.
Qed.

Lemma move_free_loop_closed (free_indxs : gset nat) (todo done : list arg) :
  NoDup (done ++ todo) →
  move_free_loop (length todo) (length done) free_indxs
    (reverse (filter (λ a, arg_in a free_indxs = true) done)
     ++ filter (λ a, arg_in a free_indxs = false) done ++ todo)
  = reverse (filter (λ a, arg_in a free_indxs = true) (done ++ todo))
    ++ filter (λ a, arg_in a free_indxs = false) (done ++ todo).
Proof.
  revert done. induction todo as [|var todo IH]; intros done Hnd.
  - simpl. by rewrite !app_nil_r.
  - assert (Hlen : length (reverse (filter (λ a, arg_in a free_indxs = true) done)
                           ++ filter (λ a, arg_in a free_indxs = false) done)
                   = length done).
    { rewrite length_app, length_reverse. apply length_filter_split. }
    assert (Hvar : var ∉ reverse (filter (λ a, arg_in a free_indxs = true) done)
                         ++ filter (λ a, arg_in a free_indxs = false) done).
    { apply NoDup_app in Hnd as (_ & Hdisj & _). intros Hin.
      assert (Hd : var ∈ done).
      { rewrite elem_of_app, elem_of_reverse, !list_elem_of_filter in Hin.
        by destruct Hin as [[_ Hin]|[_ Hin]]. }
      apply (Hdisj _ Hd), list_elem_of_here. }
    cbn [move_free_loop length]. rewrite (assoc_L (++)).
    rewrite lookup_app_r by lia. rewrite Hlen, Nat.sub_diag. simpl.
    specialize (IH (done ++ [var])).
    rewrite length_app in IH. simpl in IH. rewrite Nat.add_1_r in IH.
    rewrite <- !(assoc_L (++) done [var] todo) in IH. simpl in IH.
    rewrite !(filter_app _ done [var]) in IH. rewrite !filter_cons, !filter_nil in IH.
    destruct (arg_in var free_indxs) eqn:Hfree.
    + rewrite remove_first_middle by done.
      rewrite decide_True, decide_False in IH by done.
      rewrite reverse_app in IH. simpl in IH. rewrite app_nil_r in IH.
      rewrite <- IH; [|done]. by rewrite <- !(assoc_L (++)).
    + rewrite decide_False, decide_True in IH by done.
      rewrite app_nil_r in IH. rewrite <- IH; [|done].
      by rewrite <- !(assoc_L (++)).
Qed.

(** One pass of lines 97-100 over a duplicate-free candidate list puts the
    free entries first, in the reverse of the order they had, and leaves
    the others behind them in their order. *)
Theorem move_free_closed_form (free_indxs : gset nat) (l : list arg) :
  NoDup l →
  move_free free_indxs l
  = reverse (filter (λ a, arg_in a free_indxs = true) l)
    ++ filter (λ a, arg_in a free_indxs = false) l.
Proof. intros Hnd. apply (move_free_loop_closed free_indxs l []). done. Qed.

Lemma move_free_closed_form_witness :
  move_free {[0%nat; 2%nat]} [Var 3; Var 2; Var 1; Var 0]
  = reverse (filter (λ a, arg_in a {[0%nat; 2%nat]} = true) [Var 3; Var 2; Var 1; Var 0])
    ++ filter (λ a, arg_in a {[0%nat; 2%nat]} = false) [Var 3; Var 2; Var 1; Var 0].
Proof.
  apply (move_free_closed_form {[0%nat; 2%nat]} [Var 3; Var 2; Var 1; Var 0]).
  apply (bool_decide_unpack _). vm_compute. exact I.
Defined.

Example move_free_run :
  move_free {[0%nat; 2%nat]} [Var 3; Var 2; Var 1; Var 0] = [Var 0; Var 2; Var 3; Var 1].
Proof. vm_compute. reflexivity. Qed.

(** ** The catalog is only ever permuted *)

Lemma swap_index_inj (i j : nat) : Inj (=) (=) (swap_index i j).
Proof.
  intros m n. unfold swap_index. repeat case_decide; intros; subst; congruence.
Qed.

Lemma swap_Permutation {A} (i j : nat) (x : list A) : swap i j x ≡ₚ x.
Proof.
  unfold swap. destruct (x !! i) as [a|] eqn:Hi; [|done].
  destruct (x !! j) as [b|] eqn:Hj; [|done].
  pose proof (lookup_lt_Some _ _ _ Hi) as Hilt.
  pose proof (lookup_lt_Some _ _ _ Hj) as Hjlt.
  apply Permutation_inj. split; [by rewrite !length_insert|].
  exists (swap_index i j). split; [apply swap_index_inj|].
  intros n. unfold swap_index.
  destruct (decide (n = j)) as [->|Hnj].
  - rewrite list_lookup_insert_eq by (by rewrite length_insert).
    destruct (decide (j = i)) as [->|Hji]; congruence.
  - rewrite list_lookup_insert_ne by done.
    destruct (decide (n = i)) as [->|Hni].
    + rewrite list_lookup_insert_eq by done. done.
    + by rewrite list_lookup_insert_ne.
Qed.

Section CatalogPermutation.
Context {R : Type} (randbelow : R → nat → nat * R).
Context (num_programs program_len : Z) (LAMBDAS : list Function).

Lemma shuffle_from_Permutation {A} (i : nat) (g : R) (x : list A) :
  (shuffle_from randbelow i g x).1 ≡ₚ x.
Proof.
  revert g x. induction i as [|i IH]; intros g x; simpl; [done|].
  destruct (randbelow g (S (S i))) as [r g']. by rewrite IH, swap_Permutation.
Qed.

Lemma shuffle_functions_Permutation (st : state R) :
  ALL_FUNCTIONS (shuffle_functions randbelow st) ≡ₚ ALL_FUNCTIONS st.
Proof.
  unfold shuffle_functions, shuffle.
  pose proof (shuffle_from_Permutation (length (ALL_FUNCTIONS st) - 1) (rng st)
                (ALL_FUNCTIONS st)) as Hperm.
  destruct (shuffle_from randbelow _ _ _) as [fs g]. done.
Qed.

(** Whatever the draws, [gen_program_worker] leaves the shared list
    [ALL_FUNCTIONS] a rearrangement of what it was: no function is lost or
    doubled by the in-place shuffles. *)
Theorem worker_permutes_catalog fuel input_types (st : state R) res st' :
  gen_program_worker randbelow num_programs program_len LAMBDAS fuel input_types st
    = Some (res, st') →
  ALL_FUNCTIONS st' ≡ₚ ALL_FUNCTIONS st.
Proof.
  unfold gen_program_worker. intros Hrun.
  set (rearranged := λ s1 s2 : list Program * state R,
         ALL_FUNCTIONS s2.2 ≡ₚ ALL_FUNCTIONS s1.2).
  assert (Hrel : rearranged ([], st) (res, st')).
  { eapply (restart_loop_related randbelow num_programs program_len LAMBDAS
              (λ _, True) rearranged); [..|exact Hrun]; unfold rearranged; try done.
    - intros s1 s2 s3 H12 H23. simpl in *. by rewrite H23.
    - intros ps s. simpl. apply shuffle_functions_Permutation. }
  exact Hrel.
Qed.
End CatalogPermutation.

Lemma worker_permutes_catalog_witness :
  [HEAD; MAXIMUM; REVERSE; SORT] ≡ₚ [SORT; HEAD; MAXIMUM; REVERSE].
Proof.
  eapply (worker_permutes_catalog zero_draw 2 2 [] 5 [LIST]
            (start_state [SORT; HEAD; MAXIMUM; REVERSE]) _
            {| ALL_FUNCTIONS := [HEAD; MAXIMUM; REVERSE; SORT]; rng := tt;
               progress_counter := 2 |}).
  vm_compute. reflexivity.
Defined.

(** ** Accepted programs are well typed *)

Lemma build_type_to_vars_typed LAMBDAS program program_len t a :
  a ∈ build_type_to_vars LAMBDAS program program_len t →
  arg_has_type LAMBDAS (var_types program) a t.
Proof.
  unfold build_type_to_vars. rewrite add_lambdas_spec.
  intros [Hin|Hin]%elem_of_app.
  - destruct (reorder_free_spec (get_free_indices program program_len)
                (var_types program) (index_vars (var_types program)))
      as (_ & Hperm & _).
    { intros t'. apply index_vars_spec. }
    rewrite Hperm in Hin.
    by apply index_vars_spec in Hin as (i & -> & Hi).
  - apply list_elem_of_fmap in Hin as (f & -> & [Hf Hl]%list_elem_of_filter). by split.
Qed.

Lemma var_types_extend program f args :
  var_types (extend program f args) = var_types program ++ [output_type f].
Proof. unfold var_types, extend. simpl. by rewrite fmap_app, (assoc_L (++)). Qed.

Lemma well_typed_extend LAMBDAS program program_len f args :
  well_typed LAMBDAS program →
  args ∈ iterate_inputs f (build_type_to_vars LAMBDAS program program_len) →
  well_typed LAMBDAS (extend program f args).
Proof.
  intros Hwt Hargs j s Hj. rewrite var_types_extend.
  change (input_types (extend program f args)) with (input_types program).
  change (statements (extend program f args))
    with (statements program ++ [{| function := f; args := args |}]) in Hj.
  apply lookup_app_Some in Hj as [Hj|[Hlen Hj]].
  - pose proof (lookup_lt_Some _ _ _ Hj) as Hlt.
    rewrite take_app_le by (rewrite length_var_types; unfold len; lia).
    by apply Hwt.
  - apply list_lookup_singleton_Some in Hj as [Hj <-]. simpl.
    assert (j = length (statements program)) as -> by lia.
    rewrite take_app_length' by (rewrite length_var_types; unfold len; lia).
    apply elem_of_iterate_inputs in Hargs.
    eapply Forall2_impl; [exact Hargs|].
    intros a t Ha. exact (build_type_to_vars_typed _ _ _ _ _ Ha).
Qed.

Section WellTyped.
Context {R : Type} (randbelow : R → nat → nat * R).
Context (num_programs program_len : Z) (LAMBDAS : list Function).

(** Every program [gen_program_worker] returns has the signature it was
    called with, and each of its statements fills every slot of its
    function with a variable of that slot's type defined before the
    statement, or with a library lambda of that slot's type. *)
Theorem accepted_programs_well_typed fuel sig (st : state R) res st' p :
  gen_program_worker randbelow num_programs program_len LAMBDAS fuel sig st
    = Some (res, st') →
  p ∈ res →
  input_types p = sig ∧ well_typed LAMBDAS p.
Proof.
  unfold gen_program_worker. intros Hrun Hp.
  set (typed := λ q : Program, input_types q = sig ∧ well_typed LAMBDAS q).
  set (Rel := λ s1 s2 : list Program * state R, grows_by typed s1.1 s2.1).
  assert (Hrel : Rel ([], st) (res, st')).
  { eapply (restart_loop_related randbelow num_programs program_len LAMBDAS typed Rel);
      [..|exact Hrun]; unfold Rel.
    - intros q f args [Hsig Hwt] _ Hargs. split; [done|]. by eapply well_typed_extend.
    - intros s. apply grows_by_refl.
    - intros s1 s2 s3. apply grows_by_trans.
    - intros ps s. apply grows_by_refl.
    - intros q ps s Hq _ _ _. by apply grows_by_accept.
    - split; [done|]. intros j s Hj. done. }
  destruct (Hrel p Hp) as [Hnil|Hty]; [by apply elem_of_nil in Hnil | done].
Qed.
End WellTyped.

Lemma accepted_programs_well_typed_witness :
  input_types head_program = [LIST] ∧ well_typed [] head_program.
Proof.
  eapply (accepted_programs_well_typed top_draw 1 1 [] 2 [LIST]
            (start_state [HEAD]) [head_program]).
  - vm_compute. reflexivity.
  - apply list_elem_of_here.
Defined.

(** ** The enumerator: invariants that depend on the state and the guards *)

Section EnumeratorGuards.
Context {R : Type} (randbelow : R → nat → nat * R).
Context (num_programs program_len : Z) (LAMBDAS : list Function).

(** As in [helper_related], with what the guards of lines 78, 108 and 111
    give: the function is read from the current list, one argument is
    free, the statement is new, and the counter is below the quota when a
    program is accepted. *)
Context (Pre : Program → Prop) (Inv : state R → Prop).
Context (Rel : list Program * state R → list Program * state R → Prop).
Context (Inv_shuffle : ∀ st, Inv st → Inv (shuffle_functions randbelow st)).
Context (Inv_count : ∀ st,
  Inv st → progress_counter st < num_programs → Inv (count_program st)).
Context (Pre_extend : ∀ program f args st,
  Pre program → Inv st → f ∈ ALL_FUNCTIONS st →
  Z.of_nat (len program) < program_len →
  args ∈ iterate_inputs f (build_type_to_vars LAMBDAS program program_len) →
  (∃ a, a ∈ args ∧ arg_in a (get_free_indices program program_len) = true) →
  {| function := f; args := args |} ∉ statements program →
  Pre (extend program f args)).
Context (Rel_refl : ∀ s, Rel s s).
Context (Rel_trans : ∀ s1 s2 s3, Rel s1 s2 → Rel s2 s3 → Rel s1 s3).
Context (Rel_shuffle : ∀ programs st,
  Rel (programs, st) (programs, shuffle_functions randbelow st)).
Context (Rel_accept : ∀ program programs st,
  Pre program → Inv st → progress_counter st < num_programs →
  Z.of_nat (len program) >= program_len →
  get_unused_indices program = ∅ → program ∉ programs →
  Rel (programs, st) (program :: programs, count_program st)).

Lemma filter_nonempty_elem {A} (P : A → Prop) `{∀ x, Decision (P x)} (l : list A) :
  length (filter P l) ≠ 0%nat → ∃ a, a ∈ l ∧ P a.
Proof.
  destruct (filter P l) as [|a l'] eqn:Hf; [done|]. intros _. exists a.
  assert (Ha : a ∈ filter P l) by (rewrite Hf; apply list_elem_of_here).
  apply list_elem_of_filter in Ha as [HP Ha]. by split.
Qed.

Lemma for_args_keeps rec f free_indxs used program argss programs (st : state R)
    b programs' st' :
  rec_keeps Pre Inv Rel rec →
  (∀ args, args ∈ argss → (∃ a, a ∈ args ∧ arg_in a free_indxs = true) →
           {| function := f; args := args |} ∉ used → Pre (extend program f args)) →
  Inv st →
  for_args rec f free_indxs used program argss programs st = Some (b, programs', st') →
  Rel (programs, st) (programs', st') ∧ Inv st'.
Proof.
  intros Hrec. revert programs st.
  induction argss as [|args rest IH]; intros programs st Hpre Hinv Hrun; simpl in Hrun.
  - injection Hrun as _ <- <-. by split.
  - assert (Hrest : ∀ args0, args0 ∈ rest →
              (∃ a, a ∈ args0 ∧ arg_in a free_indxs = true) →
              {| function := f; args := args0 |} ∉ used → Pre (extend program f args0)).
    { intros args0 Hin. apply Hpre. by apply list_elem_of_further. }
    case_bool_decide as Hfree; [by eapply IH|].
    case_bool_decide as Hused; [by eapply IH|].
    destruct (rec _ programs st) as [[[r ps1] st1]|] eqn:Hcall; [|done].
    destruct (Hrec _ _ _ _ _ _ (Hpre args (list_elem_of_here _ _)
                                  (filter_nonempty_elem _ _ Hfree) Hused) Hinv Hcall)
      as [Hg1 Hinv1].
    destruct (truthy r).
    + injection Hrun as _ <- <-. by split.
    + destruct (IH ps1 st1 Hrest Hinv1 Hrun) as [Hg2 Hinv2].
      split; [by eapply Rel_trans | done].
Qed.

Lemma for_functions_keeps rec free_indxs program k i programs (st : state R)
    b programs' st' :
  rec_keeps Pre Inv Rel rec →
  Pre program → Z.of_nat (len program) < program_len →
  free_indxs = get_free_indices program program_len →
  Inv st →
  for_functions rec (build_type_to_vars LAMBDAS program program_len) free_indxs
    (statements program) program k i programs st = Some (b, programs', st') →
  Rel (programs, st) (programs', st') ∧ Inv st'.
Proof.
  intros Hrec Hpre Hlen ->. revert i programs st.
  induction k as [|k IH]; intros i programs st Hinv Hrun; simpl in Hrun.
  - injection Hrun as _ <- <-. by split.
  - destruct (ALL_FUNCTIONS st !! i) as [f|] eqn:Hf; [|injection Hrun as _ <- <-; by split].
    destruct (for_args rec f _ _ program _ programs st) as [[[b1 ps1] st1]|] eqn:Hargs;
      [|done].
    assert (Hstep : Rel (programs, st) (ps1, st1) ∧ Inv st1).
    { eapply for_args_keeps; [exact Hrec| |exact Hinv|exact Hargs].
      intros args Hin Hfree Hnew. eapply Pre_extend; try done.
      by eapply list_elem_of_lookup_2. }
    destruct Hstep as [Hg1 Hinv1].
    destruct b1.
    + injection Hrun as _ <- <-. by split.
    + destruct (IH _ _ _ Hinv1 Hrun) as [Hg2 Hinv2].
      split; [by eapply Rel_trans | done].
Qed.

Lemma helper_keeps d program programs st r programs' st' :
  Pre program → Inv st →
  helper randbelow num_programs program_len LAMBDAS d program programs st
    = Some (r, programs', st') →
  Rel (programs, st) (programs', st') ∧ Inv st'.
Proof.
  revert program programs st r programs' st'.
  induction d as [|d IH]; intros program programs st r programs' st' Hpre Hinv Hrun;
    simpl in Hrun; [done|].
  pose proof (Inv_shuffle st Hinv) as Hinv1.
  pose proof (Rel_shuffle programs st) as Hg0.
  case_bool_decide as Hquota; [injection Hrun as _ <- <-; by split|].
  case_bool_decide as Hlen.
  - destruct (bool_decide (get_unused_indices program ≠ ∅)
              || bool_decide (program ∈ programs)) eqn:Hreject.
    + injection Hrun as _ <- <-. by split.
    + injection Hrun as _ <- <-. apply orb_false_iff in Hreject as [Hunused Hnew].
      apply bool_decide_eq_false in Hunused. apply bool_decide_eq_false in Hnew.
      assert (Hempty : get_unused_indices program = ∅).
      { destruct (decide (get_unused_indices program = ∅)); [done|].
        by exfalso; apply Hunused. }
      split; [|apply Inv_count; [done|lia]].
      eapply Rel_trans; [exact Hg0|]. apply Rel_accept; [done|done|lia|done|done|done].
  - destruct (for_functions _ _ _ _ _ _ _ _ _) as [[[b ps1] st1]|] eqn:Hloop; [|done].
    assert (Hstep : Rel (programs, shuffle_functions randbelow st) (ps1, st1) ∧ Inv st1).
    { eapply for_functions_keeps; [|exact Hpre| |reflexivity|exact Hinv1|exact Hloop].
      - intros next ps0 st0 r0 ps0' st0' Hnext Hinv0 Hcall. by eapply IH.
      - lia. }
    destruct Hstep as [Hg Hinv2].
    destruct b; injection Hrun as _ <- <-; (split; [by eapply Rel_trans | done]).
Qed.

Lemma restart_loop_keeps fuel program_base res st res' st' :
  Pre program_base → Inv st →
  restart_loop randbelow num_programs program_len LAMBDAS fuel program_base res st
    = Some (res', st') →
  Rel (res, st) (res', st') ∧ Inv st'.
Proof.
  intros Hpre. revert res st. induction fuel as [|fuel IH]; intros res st Hinv Hrun;
    cbn [restart_loop] in Hrun; [done|].
  case_bool_decide.
  - destruct (helper _ _ _ _ _ program_base res st) as [[[r res1] st1]|] eqn:Hcall; [|done].
    destruct (helper_keeps _ _ _ _ _ _ _ Hpre Hinv Hcall) as [Hg1 Hinv1].
    destruct (IH _ _ Hinv1 Hrun) as [Hg2 Hinv2].
    split; [by eapply Rel_trans | done].
  - injection Hrun as <- <-. by split.
Qed.
End EnumeratorGuards.

Lemma progress_counter_shuffle_functions {R : Type} (randbelow : R → nat → nat * R)
    (st : state R) :
  progress_counter (shuffle_functions randbelow st) = progress_counter st.
Proof. unfold shuffle_functions. by destruct (shuffle randbelow _ _). Qed.

Lemma c_int_small (z : Z) : - 2 ^ 31 ≤ z < 2 ^ 31 → c_int z = z.
Proof. intros Hz. unfold c_int. rewrite Z.mod_small; lia. Qed.

Lemma consumes_fresh_extend program program_len f args a :
  consumes_fresh program →
  a ∈ args → arg_in a (get_free_indices program program_len) = true →
  consumes_fresh (extend program f args).
Proof.
  intros Hcf Ha Hfree j s Hj.
  change (statements (extend program f args))
    with (statements program ++ [{| function := f; args := args |}]) in *.
  apply lookup_app_Some in Hj as [Hj|[Hlen Hj]].
  - destruct (Hcf j s Hj) as (i & Hi & Hfirst). exists i. split; [done|].
    intros j' s' Hlt Hj'. apply (Hfirst j' s' Hlt).
    pose proof (lookup_lt_Some _ _ _ Hj) as Hjlt.
    by rewrite lookup_app_l in Hj' by lia.
  - apply list_lookup_singleton_Some in Hj as [Hj <-]. simpl.
    destruct a as [i|g]; [|done]. simpl in Hfree.
    apply bool_decide_eq_true in Hfree.
    unfold get_free_indices in Hfree. cbv zeta in Hfree.
    apply elem_of_difference in Hfree as [_ Hunused].
    exists i. split; [done|]. intros j' s' Hlt Hj' Hin.
    rewrite lookup_app_l in Hj' by lia.
    apply Hunused, elem_of_get_used_indices. by exists j', s'.
Qed.

Section AcceptedStatements.
Context {R : Type} (randbelow : R → nat → nat * R).
Context (num_programs program_len : Z) (LAMBDAS : list Function).

(** In every program [gen_program_worker] returns, no statement occurs
    twice, every statement applies a function of the catalog the worker
    started with, and every statement is the first to consume at least one
    of its variables. *)
Theorem accepted_programs_statements fuel sig (st : state R) res st' p :
  gen_program_worker randbelow num_programs program_len LAMBDAS fuel sig st
    = Some (res, st') →
  p ∈ res →
  NoDup (statements p)
  ∧ (∀ s, s ∈ statements p → function s ∈ ALL_FUNCTIONS st)
  ∧ consumes_fresh p.
Proof.
  unfold gen_program_worker. intros Hrun Hp.
  set (shaped := λ q : Program,
         NoDup (statements q)
         ∧ (∀ s, s ∈ statements q → function s ∈ ALL_FUNCTIONS st)
         ∧ consumes_fresh q).
  set (Inv := λ st0 : state R, ALL_FUNCTIONS st0 ≡ₚ ALL_FUNCTIONS st).
  set (Rel := λ s1 s2 : list Program * state R, grows_by shaped s1.1 s2.1).
  assert (Hrel : Rel ([], st) (res, st') ∧ Inv st').
  { eapply (restart_loop_keeps randbelow num_programs program_len LAMBDAS shaped Inv Rel);
      [..|exact Hrun]; unfold Rel, Inv.
    - intros st0 Hst0. by rewrite shuffle_functions_Permutation.
    - intros st0 Hst0 _. done.
    - intros q f args st0 (Hnd & Hcat & Hcf) Hst0 Hf _ _ (a & Ha & Hfree) Hnew.
      split; [|split].
      + simpl. apply NoDup_app. split; [done|]. split; [|apply NoDup_singleton].
        intros s Hs ->%list_elem_of_singleton. done.
      + simpl. intros s [Hs| ->%list_elem_of_singleton]%elem_of_app; [by apply Hcat|].
        simpl. by rewrite <- Hst0.
      + by eapply consumes_fresh_extend.
    - intros s. apply grows_by_refl.
    - intros s1 s2 s3. apply grows_by_trans.
    - intros ps s. apply grows_by_refl.
    - intros q ps s Hq _ _ _ _ _. by apply grows_by_accept.
    - split; [constructor|]. split; [|intros j s Hj; done].
      intros s Hs. by apply elem_of_nil in Hs.
    - done. }
  destruct Hrel as [Hrel _].
  destruct (Hrel p Hp) as [Hnil|Hshape]; [by apply elem_of_nil in Hnil | done].
Qed.

Lemma worker_count fuel sig (st : state R) res st' :
  num_programs < 2 ^ 31 → - 2 ^ 31 ≤ progress_counter st →
  gen_program_worker randbelow num_programs program_len LAMBDAS fuel sig st
    = Some (res, st') →
  progress_counter st' = Z.max (progress_counter st) num_programs
  ∧ Z.of_nat (length res) = Z.max 0 (num_programs - progress_counter st).
Proof.
  unfold gen_program_worker. intros Hquota Hlow Hrun.
  set (Inv := λ st0 : state R,
         - 2 ^ 31 ≤ progress_counter st0
         ≤ Z.max (progress_counter st) num_programs).
  set (Rel := λ s1 s2 : list Program * state R,
         progress_counter s2.2 - progress_counter s1.2
         = Z.of_nat (length s2.1) - Z.of_nat (length s1.1)).
  assert (Hrel : Rel ([], st) (res, st') ∧ Inv st').
  { eapply (restart_loop_keeps randbelow num_programs program_len LAMBDAS
              (λ _, True) Inv Rel); [..|exact Hrun]; unfold Rel, Inv; simpl.
    - intros st0 Hst0. by rewrite progress_counter_shuffle_functions.
    - intros st0 Hst0 Hbelow. rewrite c_int_small; lia.
    - done.
    - intros s. lia.
    - intros s1 s2 s3 H12 H23. lia.
    - intros ps s. rewrite progress_counter_shuffle_functions. lia.
    - intros q ps s _ Hs Hbelow _ _ _. rewrite c_int_small; lia.
    - done.
    - lia. }
  destruct Hrel as [Hcount [_ Hup]]. unfold Rel in Hcount. simpl in Hcount.
  apply (restart_loop_spec randbelow num_programs program_len LAMBDAS fuel _
           ([], st) (res, st')) in Hrun as (n & _ & _ & Hmet & _).
  simpl in Hmet. lia.
Qed.
(** One worker process alone never overshoots: with a quota in the range
    of the C int counter, it returns with the counter at the quota (or
    where it was, if that was already past it) and with exactly as many
    programs as the counter was short of the quota. *)
Theorem worker_returns_exact_count fuel sig (st : state R) res st' :
  num_programs < 2 ^ 31 → - 2 ^ 31 ≤ progress_counter st →
  gen_program_worker randbelow num_programs program_len LAMBDAS fuel sig st
    = Some (res, st') →
  progress_counter st' = Z.max (progress_counter st) num_programs
  ∧ Z.of_nat (length res) = Z.max 0 (num_programs - progress_counter st).
Proof. apply worker_count. Qed.

(** What [helper] checked of every program the worker returns. *)
Lemma worker_programs_complete fuel sig (st : state R) res st' p :
  gen_program_worker randbelow num_programs program_len LAMBDAS fuel sig st
    = Some (res, st') →
  p ∈ res → input_types p = sig ∧ get_unused_indices p = ∅.
Proof.
  unfold gen_program_worker. intros Hrun Hp.
  set (complete := λ q : Program, input_types q = sig ∧ get_unused_indices q = ∅).
  set (Rel := λ s1 s2 : list Program * state R, grows_by complete s1.1 s2.1).
  assert (Hrel : Rel ([], st) (res, st')).
  { eapply (restart_loop_related randbelow num_programs program_len LAMBDAS
              (λ q, input_types q = sig) Rel); [..|exact Hrun]; unfold Rel.
    - intros q f args Hsig _ _. done.
    - intros s. apply grows_by_refl.
    - intros s1 s2 s3. apply grows_by_trans.
    - intros ps s. apply grows_by_refl.
    - intros q ps s Hsig _ Hunused _. by apply grows_by_accept.
    - done. }
  destruct (Hrel p Hp) as [Hnil|Hc]; [by apply elem_of_nil in Hnil | done].
Qed.
End AcceptedStatements.

Lemma accepted_programs_statements_witness :
  NoDup (statements head_program)
  ∧ (∀ s, s ∈ statements head_program → function s ∈ ALL_FUNCTIONS (start_state [HEAD]))
  ∧ consumes_fresh head_program.
Proof.
  eapply (accepted_programs_statements top_draw 1 1 [] 2 [LIST]
            (start_state [HEAD]) [head_program]).
  - vm_compute. reflexivity.
  - apply list_elem_of_here.
Defined.

Lemma worker_returns_exact_count_witness :
  progress_counter {| ALL_FUNCTIONS := [HEAD; MAXIMUM; REVERSE; SORT]; rng := tt;
                      progress_counter := 2 |}
  = Z.max (progress_counter (start_state [SORT; HEAD; MAXIMUM; REVERSE])) 2
  ∧ Z.of_nat (length [ {| input_types := [LIST];
                          statements := [stmt REVERSE 0; stmt HEAD 1] |};
                       {| input_types := [LIST];
                          statements := [stmt REVERSE 0; stmt REVERSE 1] |} ])
    = Z.max 0 (2 - progress_counter (start_state [SORT; HEAD; MAXIMUM; REVERSE])).
Proof.
  apply (worker_returns_exact_count zero_draw 2 2 [] 5 [LIST]
           (start_state [SORT; HEAD; MAXIMUM; REVERSE])).
  - lia.
  - simpl. lia.
  - vm_compute. reflexivity.
Defined.

(** ** Corpus-mode deduplication, exactly *)

Section DictOrder.
Context {K V : Type} `{EqDecision K}.
Implicit Types (d pre rest : list (K * V)) (k : K) (v : V).

Lemma dict_get_app_fresh k v pre rest :
  k ∉ dict_keys pre → dict_get k (pre ++ (k, v) :: rest) = Some v.
Proof.
  unfold dict_keys. induction pre as [|[k0 v0] pre IH]; simpl.
  - intros _. by rewrite decide_True.
  - intros [Hne Hout]%not_elem_of_cons. rewrite decide_False by done. by apply IH.
Qed.

Lemma dict_del_app_fresh k v pre rest :
  k ∉ dict_keys pre → dict_del k (pre ++ (k, v) :: rest) = pre ++ rest.
Proof.
  unfold dict_keys. induction pre as [|[k0 v0] pre IH]; simpl.
  - intros _. by rewrite decide_True.
  - intros [Hne Hout]%not_elem_of_cons. rewrite decide_False by done. by rewrite IH.
Qed.

Lemma dict_set_fresh k v d : k ∉ dict_keys d → dict_set k v d = d ++ [(k, v)].
Proof.
  unfold dict_keys. induction d as [|[k0 v0] d IH]; simpl; [done|].
  intros [Hne Hout]%not_elem_of_cons. rewrite decide_False by done. by rewrite IH.
Qed.

Lemma dict_keys_app d1 d2 : dict_keys (d1 ++ d2) = dict_keys d1 ++ dict_keys d2.
Proof. unfold dict_keys. apply fmap_app. Qed.

(** Filling a dictionary from pairs with distinct new keys appends them. *)
Lemma foldl_dict_set_fresh (l acc : list (K * V)) :
  NoDup (dict_keys (acc ++ l)) →
  foldl (λ d kv, dict_set kv.1 kv.2 d) acc l = acc ++ l.
Proof.
  revert acc. induction l as [|[k v] l IH]; intros acc Hnd; simpl.
  - by rewrite app_nil_r.
  - rewrite dict_set_fresh.
    + rewrite IH; [by rewrite <- (assoc_L (++))|]. by rewrite <- (assoc_L (++)).
    + rewrite dict_keys_app in Hnd. apply NoDup_app in Hnd as (_ & Hdisj & _).
      intros Hin. apply (Hdisj _ Hin). simpl. apply list_elem_of_here.
Qed.
End DictOrder.

Section DiscardExactly.
Context {Example : Type} (is_same : Program → Program → list Example → bool).
Implicit Types (d pre todo : list (Program * list Example)).

Lemma discard_scan_closed program others d ex :
  dict_get program d = Some ex →
  discard_scan is_same program others d
  = Some (if judged_new is_same others (program, ex) then d else dict_del program d).
Proof.
  intros Hget. unfold judged_new. simpl.
  induction others as [|other rest IH]; simpl; [done|].
  rewrite Hget. simpl. destruct (is_same program other ex); simpl; [done | exact IH].
Qed.

Lemma discard_loop_closed existing pre todo :
  NoDup (dict_keys (pre ++ todo)) →
  discard_loop is_same existing (dict_keys todo) (pre ++ todo)
  = Some (pre ++ filter (λ entry, judged_new is_same existing entry = true) todo).
Proof.
  revert pre. induction todo as [|[p ex] todo IH]; intros pre Hnd; simpl; [done|].
  assert (Hfresh : p ∉ dict_keys pre).
  { rewrite dict_keys_app in Hnd. apply NoDup_app in Hnd as (_ & Hdisj & _).
    intros Hin. apply (Hdisj _ Hin). simpl. apply list_elem_of_here. }
  rewrite (discard_scan_closed p existing _ ex) by by apply dict_get_app_fresh.
  simpl. rewrite filter_cons.
  destruct (judged_new is_same existing (p, ex)) eqn:Hnew.
  - rewrite decide_True by done.
    specialize (IH (pre ++ [(p, ex)])). rewrite <- !(assoc_L (++)) in IH.
    by apply IH.
  - rewrite decide_False by done. rewrite dict_del_app_fresh by done.
    apply IH. rewrite dict_keys_app in *. simpl in Hnd.
    eapply NoDup_Permutation_proper in Hnd; [|by rewrite <- Permutation_middle].
    by apply NoDup_cons in Hnd as [_ Hnd].
Qed.

Lemma discard_identical_worker_closed existing d :
  NoDup (dict_keys d) →
  discard_identical_worker is_same existing d
  = Some (filter (λ entry, judged_new is_same existing entry = true) d).
Proof. intros Hnd. apply (discard_loop_closed existing [] d Hnd). Qed.

(** [discard_identical_worker] returns, in their order, exactly the
    entries whose program the oracle judges, on the entry's own examples,
    different from every existing program. *)
Theorem discard_identical_worker_is_filter existing d :
  NoDup (dict_keys d) →
  discard_identical_worker is_same existing d
  = Some (filter (λ entry, judged_new is_same existing entry = true) d).
Proof. intros Hnd. apply (discard_loop_closed existing [] d Hnd). Qed.
End DiscardExactly.

Lemma discard_identical_worker_is_filter_witness :
  discard_identical_worker same_last [reverse_maximum]
    [(sort_maximum, [2%nat]); (sort_head, [3%nat])]
  = Some (filter (λ entry, judged_new same_last [reverse_maximum] entry = true)
            [(sort_maximum, [2%nat]); (sort_head, [3%nat])]).
Proof.
  apply (discard_identical_worker_is_filter same_last [reverse_maximum]).
  apply (bool_decide_unpack _). vm_compute. exact I.
Defined.

(** ** Sharding and merging a batch *)

Lemma elem_of_slice_from_step {A} (i n : nat) (l : list A) (x : A) :
  x ∈ slice_from_step i n l ↔ ∃ j, (j < length l)%nat ∧ l !! (i + j * n)%nat = Some x.
Proof.
  unfold slice_from_step. rewrite list_elem_of_omap. split.
  - intros (j & Hj%elem_of_seq & Hx). exists j. split; [lia | done].
  - intros (j & Hj & Hx). exists j. split; [|done]. apply elem_of_seq. lia.
Qed.

(** The slices [l[i::n]] for [i] below [n] leave nothing out. *)
Lemma slice_from_step_covers {A} (n : nat) (l : list A) (x : A) :
  (1 ≤ n)%nat → x ∈ l → ∃ i, (i < n)%nat ∧ x ∈ slice_from_step i n l.
Proof.
  intros Hn (m & Hm)%list_elem_of_lookup.
  pose proof (lookup_lt_Some _ _ _ Hm) as Hlt.
  exists (m mod n)%nat. split; [apply Nat.mod_upper_bound; lia|].
  apply elem_of_slice_from_step. exists (m / n)%nat. split.
  - pose proof (Nat.Div0.div_le_upper_bound m n m). nia.
  - replace (m mod n + m / n * n)%nat with m; [done|].
    pose proof (Nat.div_mod_eq m n). lia.
Qed.

Section MergeExactly.
Context {Example : Type} (is_same : Program → Program → list Example → bool).
Implicit Types (d acc part new_examples examples merged : list (Program * list Example)).

Lemma dict_part_get new_examples programs acc part p :
  dict_part new_examples programs acc = Some part →
  p ∈ programs → dict_get p part = dict_get p new_examples.
Proof.
  revert acc. induction programs as [|q rest IH]; intros acc; simpl.
  - intros _ Hp. by apply elem_of_nil in Hp.
  - destruct (dict_get q new_examples) as [ex|] eqn:Hget; simpl; [|done].
    intros Hrest Hp. destruct (decide (p ∈ rest)) as [Hin|Hout]; [by eapply IH|].
    apply elem_of_cons in Hp as [->|Hp]; [|done].
    rewrite Hget. clear IH Hout.
    assert (Hacc : dict_get q (dict_set q ex acc) = Some ex).
    { rewrite dict_get_set. by rewrite decide_True. }
    revert Hacc Hrest. generalize (dict_set q ex acc). clear acc.
    induction rest as [|r rest IH]; intros acc Hacc; simpl.
    + by intros [= <-].
    + destruct (dict_get r new_examples) as [exr|] eqn:Hr; simpl; [|done].
      apply IH. rewrite dict_get_set. case_decide as Hqr; [|done].
      subst r. congruence.
Qed.

Lemma dict_update_keys_prefix (d d2 : list (Program * list Example)) :
  dict_keys d `prefix_of` dict_keys (dict_update d d2).
Proof.
  unfold dict_update. revert d. induction d2 as [|[k v] d2 IH]; intros d; simpl; [done|].
  etrans; [|apply IH]. rewrite dict_set_keys. case_decide; [done|].
  by apply prefix_app_r.
Qed.

Lemma dict_update_keys_r (d d2 : list (Program * list Example)) p :
  p ∈ dict_keys d2 → p ∈ dict_keys (dict_update d d2).
Proof.
  unfold dict_update. revert d. induction d2 as [|[k v] d2 IH]; intros d; simpl.
  - intros Hp. by apply elem_of_nil in Hp.
  - intros [->|Hp]%elem_of_cons; [|by apply IH].
    eapply elem_of_prefix; [|apply (dict_update_keys_prefix _ d2)].
    rewrite dict_set_keys. case_decide; [done|].
    apply elem_of_app. right. apply list_elem_of_here.
Qed.

Lemma foldl_dict_update_keys_prefix examples (res : list (list (Program * list Example))) :
  dict_keys examples `prefix_of` dict_keys (foldl dict_update examples res).
Proof.
  revert examples. induction res as [|d res IH]; intros examples; simpl; [done|].
  etrans; [apply (dict_update_keys_prefix examples d) | apply IH].
Qed.

Lemma foldl_dict_update_keys_r examples (res : list (list (Program * list Example))) d p :
  d ∈ res → p ∈ dict_keys d → p ∈ dict_keys (foldl dict_update examples res).
Proof.
  revert examples. induction res as [|d0 res IH]; intros examples; simpl.
  - intros Hd. by apply elem_of_nil in Hd.
  - intros [->|Hd]%elem_of_cons Hp; [|by apply IH].
    eapply elem_of_prefix; [|apply foldl_dict_update_keys_prefix].
    by apply dict_update_keys_r.
Qed.

(** Every shard index below the number of workers has its shard and its
    deduplicated shard among the results. *)
Lemma merge_batch_shards num_workers examples new_examples merged (i : nat) :
  merge_batch is_same num_workers examples new_examples = Some merged →
  (i < Z.to_nat num_workers)%nat →
  ∃ part d,
    dict_part new_examples
      (slice_from_step i (Z.to_nat num_workers) (dict_keys new_examples)) [] = Some part
    ∧ discard_identical_worker is_same (dict_keys examples) part = Some d
    ∧ ∃ res, merged = foldl dict_update examples res ∧ d ∈ res.
Proof.
  unfold merge_batch. case_bool_decide; [done|].
  destruct (mapM _ (_ <$> _)) as [parts|] eqn:Hparts; simpl; [|done].
  destruct (mapM _ parts) as [res|] eqn:Hres; simpl; [|done].
  intros [= <-] Hi. apply mapM_Some_1 in Hres, Hparts.
  assert (Hslice : ((λ i0, slice_from_step i0 (Z.to_nat num_workers)
                             (dict_keys new_examples))
                      <$> seq 0 (Z.to_nat num_workers)) !! i
                   = Some (slice_from_step i (Z.to_nat num_workers)
                             (dict_keys new_examples))).
  { rewrite list_lookup_fmap, lookup_seq_lt by done. done. }
  destruct (Forall2_lookup_l _ _ _ _ _ Hparts Hslice) as (part & Hpart & Hbuild).
  destruct (Forall2_lookup_l _ _ _ _ _ Hres Hpart) as (d & Hd & Hrun).
  exists part, d. split; [done|]. split; [done|]. exists res. split; [done|].
  by eapply list_elem_of_lookup_2.
Qed.

(** Where the entries of a merged corpus come from. *)
Lemma merge_batch_sources num_workers examples new_examples merged p ex :
  merge_batch is_same num_workers examples new_examples = Some merged →
  dict_get p merged = Some ex →
  dict_get p examples = Some ex
  ∨ (dict_get p new_examples = Some ex
     ∧ judged_new is_same (dict_keys examples) (p, ex) = true).
Proof.
  intros (res & -> & Hres)%merge_batch_unfold Hget.
  apply foldl_dict_update_get in Hget as [He|(d & Hd & Hin)]; [by left|]. right.
  destruct (Hres d Hd) as (part & [Hnd Hpart] & Hrun).
  rewrite (discard_identical_worker_closed is_same _ part Hnd) in Hrun.
  injection Hrun as <-. apply list_elem_of_filter in Hin as [Hnew Hin].
  split; [by apply Hpart | done].
Qed.

(** A merge adds, behind the keys the corpus had, exactly the programs of
    the batch that are judged different from every program the corpus
    held: none of them is lost by the sharding, whatever the number of
    workers. *)
Theorem merge_batch_keeps_exactly num_workers examples new_examples merged :
  merge_batch is_same num_workers examples new_examples = Some merged →
  dict_keys examples `prefix_of` dict_keys merged
  ∧ ∀ p, p ∈ dict_keys merged ↔
         p ∈ dict_keys examples
         ∨ ∃ ex, dict_get p new_examples = Some ex
                 ∧ judged_new is_same (dict_keys examples) (p, ex) = true.
Proof.
  intros Hmerge. split.
  { apply merge_batch_unfold in Hmerge as (res & -> & _).
    apply foldl_dict_update_keys_prefix. }
  intros p. split.
  - intros [ex Hget]%dict_get_is_Some.
    destruct (merge_batch_sources _ _ _ _ _ _ Hmerge Hget) as [He|[Hn Hnew]].
    + left. by eapply elem_of_dict_keys, dict_get_Some_elem_of.
    + right. by exists ex.
  - intros [Hold|(ex & Hget & Hnew)].
    + apply merge_batch_unfold in Hmerge as (res & -> & _).
      eapply elem_of_prefix; [exact Hold | apply foldl_dict_update_keys_prefix].
    + assert (Hw : 1 ≤ num_workers).
      { unfold merge_batch in Hmerge. by case_bool_decide; [|lia]. }
      assert (Hkey : p ∈ dict_keys new_examples)
        by by eapply elem_of_dict_keys, dict_get_Some_elem_of.
      destruct (slice_from_step_covers (Z.to_nat num_workers) (dict_keys new_examples) p)
        as (i & Hi & Hslice); [lia|done|].
      destruct (merge_batch_shards _ _ _ _ i Hmerge Hi)
        as (part & d & Hbuild & Hrun & res & -> & Hd).
      destruct (dict_part_spec _ _ _ _ Hbuild (shard_of_nil _)) as [Hnd _].
      rewrite (discard_identical_worker_closed is_same _ part Hnd) in Hrun.
      injection Hrun as <-.
      eapply foldl_dict_update_keys_r; [exact Hd|].
      eapply elem_of_dict_keys, list_elem_of_filter. split; [exact Hnew|].
      apply dict_get_Some_elem_of.
      rewrite (dict_part_get _ _ _ _ p Hbuild Hslice). done.
Qed.
End MergeExactly.

Lemma merge_batch_keeps_exactly_witness :
  dict_keys [(head_program, [7%nat])]
    `prefix_of` dict_keys [(head_program, [7%nat]); (sort_maximum, [2%nat])]
  ∧ ∀ p, p ∈ dict_keys [(head_program, [7%nat]); (sort_maximum, [2%nat])] ↔
         p ∈ dict_keys [(head_program, [7%nat])]
         ∨ ∃ ex, dict_get p [(sort_maximum, [2%nat]); (sort_head, [3%nat])] = Some ex
                 ∧ judged_new same_last (dict_keys [(head_program, [7%nat])]) (p, ex) = true.
Proof.
  apply (merge_batch_keeps_exactly same_last 2 [(head_program, [7%nat])]
           [(sort_maximum, [2%nat]); (sort_head, [3%nat])]).
  vm_compute. reflexivity.
Defined.

(** ** Loading and writing records *)

Section DictFill.
Context {K V : Type} `{EqDecision K}.

(** Filled record by record, a dictionary holds under each key the value
    of the last record with that key. *)
Lemma dict_get_fill (entries acc : list (K * V)) (k : K) :
  dict_get k (foldl (λ d kv, dict_set kv.1 kv.2 d) acc entries)
  = match dict_get k (reverse entries) with
    | Some v => Some v
    | None => dict_get k acc
    end.
Proof.
  revert acc. induction entries as [|[k0 v0] entries IH] using rev_ind; intros acc.
  - done.
  - rewrite foldl_app, reverse_app. simpl.
    rewrite dict_get_set. case_decide as Hk; [done | apply IH].
Qed.

Lemma dict_fill_NoDup (entries acc : list (K * V)) :
  NoDup (dict_keys acc) →
  NoDup (dict_keys (foldl (λ d kv, dict_set kv.1 kv.2 d) acc entries)).
Proof.
  revert acc. induction entries as [|[k v] entries IH]; intros acc Hnd; simpl; [done|].
  by apply IH, dict_set_NoDup.
Qed.
End DictFill.

Section Records.
Context {Example Json : Type}.
Context (json_loads : string → option Json).
Context (Program_parse : Json → option Program).
Context (Example_from_line : Json → option (list Example)).

Local Abbreviation decode := (decode_line json_loads Program_parse Example_from_line).
Local Abbreviation load := (load_cache json_loads Program_parse Example_from_line).

Lemma mapM_cons_option {A B} (f : A → option B) (x : A) (l : list A) :
  mapM f (x :: l) = y ← f x; k ← mapM f l; Some (y :: k).
Proof. done. Qed.

Lemma option_bind_Some_l {A B} (f : A → option B) (x : A) : Some x ≫= f = f x.
Proof. done. Qed.

Lemma option_bind_None_l {A B} (f : A → option B) : None ≫= f = None.
Proof. done. Qed.

Lemma load_cache_loop_cons (j : Json) (lines : list Json)
    (acc : list (Program * list Example)) :
  load_cache_loop Program_parse Example_from_line (j :: lines) acc
  = program ← Program_parse j;
    p_examples ← Example_from_line j;
    load_cache_loop Program_parse Example_from_line lines (dict_set program p_examples acc).
Proof. done. Qed.

(** [load_cache] decodes every line and fills a dictionary with the
    entries, in the order of the lines. *)
Lemma load_cache_fill_from file_lines (acc : list (Program * list Example)) :
  (lines ← mapM json_loads file_lines;
   load_cache_loop Program_parse Example_from_line lines acc)
  = (entries ← mapM decode file_lines;
     Some (foldl (λ d kv, dict_set kv.1 kv.2 d) acc entries)).
Proof.
  revert acc. induction file_lines as [|line file_lines IH]; intros acc; [done|].
  rewrite !mapM_cons_option.
  destruct (json_loads line) as [j|] eqn:Hj.
  2:{ assert (decode line = None) as -> by (unfold decode_line; by rewrite Hj).
      by rewrite !option_bind_None_l. }
  rewrite option_bind_Some_l.
  destruct (Program_parse j) as [p|] eqn:Hp.
  2:{ assert (decode line = None) as ->.
      { unfold decode_line. rewrite Hj, option_bind_Some_l. by rewrite Hp. }
      rewrite !option_bind_None_l.
      destruct (mapM json_loads file_lines) as [js|]; [|done].
      rewrite !option_bind_Some_l, load_cache_loop_cons. by rewrite Hp. }
  destruct (Example_from_line j) as [ex|] eqn:Hex.
  2:{ assert (decode line = None) as ->.
      { unfold decode_line. rewrite Hj, option_bind_Some_l, Hp, option_bind_Some_l.
        by rewrite Hex. }
      rewrite !option_bind_None_l.
      destruct (mapM json_loads file_lines) as [js|]; [|done].
      rewrite !option_bind_Some_l, load_cache_loop_cons, Hp, option_bind_Some_l.
      by rewrite Hex. }
  assert (decode line = Some (p, ex)) as ->.
  { unfold decode_line. rewrite Hj, option_bind_Some_l, Hp, option_bind_Some_l.
    by rewrite Hex. }
  rewrite option_bind_Some_l. specialize (IH (dict_set p ex acc)).
  destruct (mapM json_loads file_lines) as [js|].
  - rewrite !option_bind_Some_l, load_cache_loop_cons, Hp, option_bind_Some_l, Hex,
      option_bind_Some_l.
    rewrite option_bind_Some_l in IH. rewrite IH.
    by destruct (mapM decode file_lines).
  - rewrite !option_bind_None_l. rewrite option_bind_None_l in IH.
    by destruct (mapM decode file_lines).
Qed.

(** [load_cache] succeeds exactly when every line decodes; the corpus it
    returns has one entry per program, holding the examples of the last
    record of that program. *)
Theorem load_cache_last_record_wins file_lines :
  match mapM decode file_lines with
  | None => load file_lines = None
  | Some entries =>
    ∃ examples, load file_lines = Some examples
      ∧ NoDup (dict_keys examples)
      ∧ ∀ p, dict_get p examples = dict_get p (reverse entries)
  end.
Proof.
  unfold load_cache. rewrite (load_cache_fill_from file_lines []).
  destruct (mapM decode file_lines) as [entries|]; csimpl; [|done].
  eexists. split; [done|]. split.
  - apply dict_fill_NoDup. constructor.
  - intros p. rewrite dict_get_fill. simpl. by destruct (dict_get p (reverse entries)).
Qed.
End Records.

Section RoundTrip.
Context {Value Raw Json : Type} (val : Value → Raw).
Context (encoded : Program → string).
Context (json_dumps : string * list (list Raw * Raw) → string).
Context (json_loads : string → option Json).
Context (Program_parse : Json → option Program).
Context (Example_from_line : Json → option (list (list Value * Value))).

Local Abbreviation decode' := (decode_line json_loads Program_parse Example_from_line).
Local Abbreviation write' := (write_programs_to_file val encoded json_dumps).

(** The record [write_programs_to_file] writes for one entry. *)
Local Abbreviation record_of p p_examples :=
  (json_dumps (encoded p,
               (λ ex : list Value * Value, (val <$> ex.1, val ex.2)) <$> p_examples)
   +:+ newline).

Lemma write_then_decode programs (examples : list (Program * list (list Value * Value))) :
  programs ⊆ dict_keys examples →
  (∀ p p_examples, p ∈ programs → dict_get p examples = Some p_examples →
     decode' (record_of p p_examples) = Some (p, p_examples)) →
  ∃ lines, write' programs examples = Some lines
    ∧ mapM decode' lines
      = Some (omap (λ p, pair p <$> dict_get p examples) programs).
Proof.
  unfold write_programs_to_file.
  induction programs as [|p programs IH]; intros Hsub Hcodec.
  - by exists [].
  - destruct IH as (lines & Hwrite & Hread).
    { intros q Hq. by apply Hsub, list_elem_of_further. }
    { intros q exs Hq. apply Hcodec. by apply list_elem_of_further. }
    destruct (dict_get_is_Some p examples) as [p_examples Hget].
    { apply Hsub, list_elem_of_here. }
    exists (record_of p p_examples :: lines). split.
    + rewrite mapM_cons_option, Hget. rewrite !option_bind_Some_l.
      by rewrite Hwrite.
    + rewrite mapM_cons_option, (Hcodec p p_examples (list_elem_of_here _ _) Hget).
      rewrite option_bind_Some_l, Hread. simpl. by rewrite Hget.
Qed.

(** A file written by [write_programs_to_file] for distinct programs of
    the corpus, under a codec that decodes the records it is given, is
    loaded back by [load_cache] as those programs with their examples,
    in the order they were written. *)
Theorem written_corpus_loads_back programs
    (examples : list (Program * list (list Value * Value))) :
  NoDup programs → programs ⊆ dict_keys examples →
  (∀ p p_examples, p ∈ programs → dict_get p examples = Some p_examples →
     decode' (record_of p p_examples) = Some (p, p_examples)) →
  ∃ lines, write' programs examples = Some lines
    ∧ load_cache json_loads Program_parse Example_from_line lines
      = Some (omap (λ p, pair p <$> dict_get p examples) programs).
Proof.
  intros Hnd Hsub Hcodec.
  destruct (write_then_decode programs examples Hsub Hcodec) as (lines & Hwrite & Hread).
  exists lines. split; [done|].
  unfold load_cache. rewrite (load_cache_fill_from json_loads Program_parse
                                Example_from_line lines []).
  rewrite Hread, option_bind_Some_l. f_equal.
  apply (foldl_dict_set_fresh _ []). simpl.
  clear Hwrite Hread Hcodec.
  induction programs as [|p programs IH]; [constructor|].
  apply NoDup_cons in Hnd as [Hout Hnd]. simpl.
  destruct (dict_get_is_Some p examples) as [exs ->]; [apply Hsub, list_elem_of_here|].
  simpl. constructor.
  - intros (kv & Hk & Hin)%list_elem_of_fmap.
    apply list_elem_of_omap in Hin as (q & Hq & Hkv).
    destruct (dict_get q examples); simpl in Hkv; [|done].
    injection Hkv as <-. simpl in Hk. by subst q.
  - apply IH; [done|]. intros q Hq. by apply Hsub, list_elem_of_further.
Qed.
End RoundTrip.

Lemma written_corpus_loads_back_witness :
  ∃ lines,
    write_programs_to_file id toy_encoded toy_json_dumps [head_program] valued_corpus
      = Some lines
    ∧ load_cache toy_json_loads toy_parse_record toy_examples_of_record lines
      = Some (omap (λ p, pair p <$> dict_get p valued_corpus) [head_program]).
Proof.
  apply (written_corpus_loads_back id toy_encoded toy_json_dumps
           toy_json_loads toy_parse_record toy_examples_of_record).
  - apply (bool_decide_unpack _). vm_compute. exact I.
  - intros p ->%list_elem_of_singleton. apply list_elem_of_here.
  - intros p exs ->%list_elem_of_singleton Hget.
    vm_compute in Hget. injection Hget as <-. vm_compute. reflexivity.
Defined.

(** ** The per-length loop without a cache *)

Section MainLoop.
Context {Example Json : Type}.
Context (is_same : Program → Program → list Example → bool).
Context (gen_programs : Z → Z → list (Program * list Example)).
Context (num_train num_test max_train_len num_workers : Z).
Context (json_loads : string → option Json).
Context (Program_parse : Json → option Program).
Context (Example_from_line : Json → option (list Example)).
Implicit Types (examples final : list (Program * list Example)).

Lemma length_loop_sources lens examples log :
  1 ≤ num_workers →
  ∃ final,
    length_loop is_same gen_programs num_train num_test num_workers lens examples log
      = (log ++ lens, Some final)
    ∧ ∀ p ex, dict_get p final = Some ex →
        dict_get p examples = Some ex
        ∨ ∃ l, l ∈ lens
               ∧ dict_get p (gen_programs l (quota num_train num_test l)) = Some ex.
Proof.
  intros Hw. revert examples log.
  induction lens as [|l lens IH]; intros examples log; simpl.
  - exists examples. rewrite app_nil_r. split; [done|]. intros p ex Hget. by left.
  - destruct (merge_batch_total is_same num_workers examples
                (gen_programs l (quota num_train num_test l)) Hw) as [merged Hmerge].
    rewrite Hmerge.
    destruct (IH merged (log ++ [l])) as (final & Hrun & Hsrc).
    exists final. rewrite Hrun, <- (assoc_L (++)). split; [done|].
    intros p ex Hget. destruct (Hsrc p ex Hget) as [Hm|(l' & Hl' & Hg)].
    + destruct (merge_batch_sources _ _ _ _ _ _ _ Hmerge Hm) as [He|[Hn _]]; [by left|].
      right. exists l. split; [apply list_elem_of_here | done].
    + right. exists l'. split; [by apply list_elem_of_further | done].
Qed.

(** Without a cache and with at least one worker, [main] generates for the
    lengths 1 .. max_train_len in turn and ends with a corpus each of
    whose entries is an entry of the batch of one of these lengths,
    generated under the quota of that length. *)
Theorem main_without_cache_covers_lengths :
  1 ≤ num_workers →
  ∃ final,
    main_corpus is_same gen_programs num_train num_test max_train_len num_workers
      json_loads Program_parse Example_from_line None
      = (seqZ 1 max_train_len, Some final)
    ∧ ∀ p ex, dict_get p final = Some ex →
        ∃ l, 1 ≤ l ≤ max_train_len
             ∧ dict_get p (gen_programs l (quota num_train num_test l)) = Some ex.
Proof.
  intros Hw. unfold main_corpus.
  destruct (length_loop_sources (seqZ 1 max_train_len) [] [] Hw) as (final & Hrun & Hsrc).
  exists final. split; [done|]. intros p ex Hget.
  destruct (Hsrc p ex Hget) as [Hnil|(l & Hl%elem_of_seqZ & Hg)]; [done|].
  exists l. split; [lia | done].
Qed.

Lemma decode_line_None line :
  decode_line json_loads Program_parse Example_from_line line = None
  ↔ malformed json_loads Program_parse Example_from_line line.
Proof.
  unfold decode_line, malformed. destruct (json_loads line) as [j|]; simpl; [|done].
  destruct (Program_parse j) as [p|]; simpl; [|by split; [left|]].
  destruct (Example_from_line j) as [ex|]; simpl.
  - split; [done | by intros [?|?]].
  - by split; [right|].
Qed.

Lemma dict_set_length {K V} `{EqDecision K} (k : K) (v : V) (d : list (K * V)) :
  (1 ≤ length (dict_set k v d))%nat ∧ (length d ≤ length (dict_set k v d))%nat.
Proof.
  induction d as [|[k0 v0] d IH]; simpl; [lia|]. case_decide; simpl; lia.
Qed.

Lemma dict_fill_nonempty (entries acc : list (Program * list Example)) :
  entries ≠ [] → foldl (λ d kv, dict_set kv.1 kv.2 d) acc entries ≠ [].
Proof.
  assert (Hgrow : ∀ es (acc0 : list (Program * list Example)),
            (length acc0 ≤ length (foldl (λ d kv, dict_set kv.1 kv.2 d) acc0 es))%nat).
  { induction es as [|e es IH]; intros acc0; simpl; [done|].
    etrans; [|apply IH]. apply dict_set_length. }
  destruct entries as [|e es]; [done|]. intros _ Hnil. simpl in Hnil.
  specialize (Hgrow es (dict_set e.1 e.2 acc)). rewrite Hnil in Hgrow. simpl in Hgrow.
  pose proof (dict_set_length e.1 e.2 acc). lia.
Qed.

(** With at least one worker, resuming from a cache ends without a corpus
    exactly when the cache file has no record or has a malformed one; in
    both cases nothing has been generated. *)
Theorem main_with_cache_raises_iff file_lines :
  1 ≤ num_workers →
  let result :=
    main_corpus is_same gen_programs num_train num_test max_train_len num_workers
      json_loads Program_parse Example_from_line (Some file_lines) in
  (result.2 = None ↔
     file_lines = []
     ∨ ∃ line, line ∈ file_lines
               ∧ malformed json_loads Program_parse Example_from_line line)
  ∧ (result.2 = None → result.1 = []).
Proof.
  intros Hw. cbv zeta. unfold main_corpus, load_cache.
  rewrite (load_cache_fill_from json_loads Program_parse Example_from_line file_lines []).
  destruct (mapM (decode_line json_loads Program_parse Example_from_line) file_lines)
    as [entries|] eqn:Hdec.
  - rewrite option_bind_Some_l.
    destruct (decide (file_lines = [])) as [->|Hne].
    { injection Hdec as <-. simpl. split; [|done]. split; [by left | done]. }
    assert (Hentries : entries ≠ []).
    { apply length_mapM in Hdec. intros ->. by destruct file_lines. }
    pose proof (dict_fill_nonempty entries [] Hentries) as Hfill.
    destruct (foldl _ [] entries) as [|e d] eqn:Hd; [done|].
    assert (Hmax : is_Some (py_max (len <$> dict_keys (e :: d)))) by (simpl; eauto).
    destruct Hmax as [k ->].
    destruct (length_loop_sources
                (seqZ (Z.of_nat k + 1) (max_train_len - Z.of_nat k)) (e :: d) [] Hw)
      as (final & -> & _).
    simpl. split; [|done]. split; [done|].
    intros [?|(line & Hin & Hbad%decode_line_None)]; [done|].
    apply mapM_Some_1 in Hdec. apply list_elem_of_lookup in Hin as (n & Hn).
    destruct (Forall2_lookup_l _ _ _ _ _ Hdec Hn) as (entry & _ & Hline). congruence.
  - rewrite option_bind_None_l. simpl. split; [|done]. split; [|done]. intros _. right.
    apply mapM_None_1, Exists_exists in Hdec as (line & Hin & Hbad).
    exists line. split; [done|]. by apply decode_line_None.
Qed.
End MainLoop.

Lemma main_without_cache_covers_lengths_witness :
  ∃ final,
    main_corpus same_last toy_gen_programs 5 5 2 2
      toy_json_loads toy_program_parse toy_examples None
      = (seqZ 1 2, Some final)
    ∧ ∀ p ex, dict_get p final = Some ex →
        ∃ l, 1 ≤ l ≤ 2 ∧ dict_get p (toy_gen_programs l (quota 5 5 l)) = Some ex.
Proof.
  apply (main_without_cache_covers_lengths same_last toy_gen_programs 5 5 2 2
           toy_json_loads toy_program_parse toy_examples).
  lia.
Defined.

Lemma main_with_cache_raises_iff_witness :
  let result :=
    main_corpus same_last toy_gen_programs 5 5 2 2
      toy_json_loads toy_program_parse toy_examples (Some broken_cache) in
  (result.2 = None ↔
     broken_cache = []
     ∨ ∃ line, line ∈ broken_cache
               ∧ malformed toy_json_loads toy_program_parse toy_examples line)
  ∧ (result.2 = None → result.1 = []).
Proof.
  apply (main_with_cache_raises_iff same_last toy_gen_programs 5 5 2 2
           toy_json_loads toy_program_parse toy_examples broken_cache).
  lia.
Defined.

(** ** Sampling the test programs *)

Lemma imap_pair_snd {A} (f : nat → nat) (l : list A) :
  (imap (λ i x, (f i, x)) l).*2 = l.
Proof.
  revert f. induction l as [|x l IH]; intros f; [done|].
  rewrite imap_cons. csimpl. f_equal. apply (IH (f ∘ S)).
Qed.

Lemma enumerate_snd {A} (l : list A) : (enumerate l).*2 = l.
Proof. apply (imap_pair_snd id). Qed.

Lemma elem_of_enumerate {A} (l : list A) (i : nat) (x : A) :
  (i, x) ∈ enumerate l ↔ l !! i = Some x.
Proof.
  unfold enumerate. rewrite elem_of_lookup_imap. split.
  - by intros (j & y & [= -> ->] & Hy).
  - intros Hx. by exists i, x.
Qed.

(** Returning the unmarked positions of a list gives a sublist of it. *)
Lemma unmarked_sublist {A} (marked : gset nat) (pre l : list A) :
  omap (λ i, if bool_decide (i ∈ marked) then None else (pre ++ l) !! i)
       (seq (length pre) (length l))
  `sublist_of` l.
Proof.
  revert pre. induction l as [|x l IH]; intros pre; [done|]. simpl.
  specialize (IH (pre ++ [x])). rewrite length_app, <- (assoc_L (++)) in IH.
  simpl in IH. rewrite Nat.add_1_r in IH.
  case_bool_decide.
  - by apply sublist_cons.
  - rewrite lookup_app_r, Nat.sub_diag by lia. simpl. by apply sublist_skip.
Qed.

Section Sampling.
Context {Example R : Type}.
Context (is_same : Program → Program → list Example → bool).
Context (randbelow : R → nat → nat * R) (num_test : Z).
Implicit Types (examples : list (Program * list Example)).
Implicit Types (indices_to_discard : gset nat).

Lemma mark_equivalent_grows examples program others indices_to_discard marked :
  mark_equivalent is_same examples program others indices_to_discard = Some marked →
  indices_to_discard ⊆ marked.
Proof.
  revert indices_to_discard. induction others as [|[j other] rest IH];
    intros indices_to_discard; simpl.
  - by intros [= <-].
  - case_bool_decide; [apply IH|].
    destruct (dict_get program examples) as [ex|]; simpl; [|done].
    destruct (is_same program other ex); [|apply IH].
    intros Hrest%IH. set_solver.
Qed.

Lemma mark_equivalent_total examples program others indices_to_discard :
  program ∈ dict_keys examples →
  is_Some (mark_equivalent is_same examples program others indices_to_discard).
Proof.
  intros [ex Hget]%dict_get_is_Some. revert indices_to_discard.
  induction others as [|[j other] rest IH]; intros indices_to_discard; simpl; [done|].
  case_bool_decide; [apply IH|]. rewrite Hget. simpl.
  destruct (is_same program other ex); apply IH.
Qed.

(** The loop appends accepted candidates in their order, marks each of
    them, never unmarks a position, and stops at [num_test]. *)
Lemma sample_tests_spec examples test_candidates todo test_programs
    indices_to_discard tests marked :
  sample_tests is_same num_test examples test_candidates todo test_programs
    indices_to_discard = Some (tests, marked) →
  ∃ added, tests = test_programs ++ added
    ∧ added `sublist_of` todo.*2
    ∧ indices_to_discard ⊆ marked
    ∧ (∀ p, p ∈ added → ∃ i, (i, p) ∈ todo ∧ i ∈ marked)
    ∧ (Z.of_nat (length test_programs) ≤ Z.max 0 num_test →
       Z.of_nat (length tests) ≤ Z.max 0 num_test).
Proof.
  revert test_programs indices_to_discard tests marked.
  induction todo as [|[i program] rest IH];
    intros test_programs indices_to_discard tests marked; simpl.
  - intros [= <- <-]. exists []. rewrite app_nil_r. repeat split; try done.
    intros p Hp. by apply elem_of_nil in Hp.
  - case_bool_decide as Hfull.
    { intros [= <- <-]. exists []. rewrite app_nil_r. repeat split; try done.
      + apply sublist_nil_l.
      + intros p Hp. by apply elem_of_nil in Hp. }
    case_bool_decide as Hskip.
    { intros (added & -> & Hsub & Hmono & Hmarked & Hbound)%IH.
      exists added. repeat split; try done.
      + by apply sublist_cons.
      + intros p Hp. destruct (Hmarked p Hp) as (j & Hj & Hjm).
        exists j. split; [by apply list_elem_of_further | done]. }
    destruct (mark_equivalent is_same examples program _ _) as [marked1|] eqn:Hmark;
      simpl; [|done].
    apply mark_equivalent_grows in Hmark.
    intros (added & -> & Hsub & Hmono & Hmarked & Hbound)%IH.
    exists (program :: added). rewrite <- (assoc_L (++)). repeat split.
    + by apply sublist_skip.
    + set_solver.
    + intros p [->|Hp]%elem_of_cons.
      * exists i. split; [apply list_elem_of_here | set_solver].
      * destruct (Hmarked p Hp) as (j & Hj & Hjm).
        exists j. split; [by apply list_elem_of_further | done].
    + intros Hle. rewrite (assoc_L (++)). apply Hbound. rewrite length_app. simpl. lia.
Qed.

Lemma sample_tests_total examples test_candidates todo test_programs indices_to_discard :
  (∀ i p, (i, p) ∈ todo → p ∈ dict_keys examples) →
  is_Some (sample_tests is_same num_test examples test_candidates todo test_programs
             indices_to_discard).
Proof.
  revert test_programs indices_to_discard.
  induction todo as [|[i program] rest IH]; intros test_programs indices_to_discard Hkeys;
    simpl; [done|].
  assert (Hrest : ∀ j p, (j, p) ∈ rest → p ∈ dict_keys examples).
  { intros j p Hin. eapply Hkeys. by apply list_elem_of_further. }
  case_bool_decide; [done|]. case_bool_decide; [by apply IH|].
  destruct (mark_equivalent_total examples program
              (enumerate (drop (S i) test_candidates)) ({[i]} ∪ indices_to_discard))
    as [marked ->].
  { eapply Hkeys. apply list_elem_of_here. }
  simpl. by apply IH.
Qed.

Lemma test_round_spec g examples test_len train_programs tests pool g' :
  NoDup train_programs →
  test_round is_same num_test randbelow g examples test_len train_programs
    = Some (tests, pool, g') →
  Z.of_nat (length tests) ≤ Z.max 0 num_test
  ∧ NoDup tests
  ∧ (∀ p, p ∈ tests → Z.of_nat (len p) = test_len ∧ p ∈ train_programs ∧ p ∉ pool)
  ∧ NoDup pool ∧ pool ⊆ train_programs
  ∧ filter (λ x, Z.of_nat (length (statements x)) ≠ test_len) train_programs
      `prefix_of` pool.
Proof.
  intros Hnd. unfold test_round.
  set (others := filter (λ x, Z.of_nat (length (statements x)) ≠ test_len) train_programs).
  set (same := filter (λ x, Z.of_nat (length (statements x)) = test_len) train_programs).
  pose proof (shuffle_from_Permutation randbelow (length same - 1) g same) as Hperm.
  unfold shuffle. destruct (shuffle_from randbelow (length same - 1) g same)
    as [cands g1]. simpl in Hperm.
  destruct (sample_tests _ _ _ _ _ _ _) as [[tests0 marked]|] eqn:Hsample; simpl; [|done].
  intros [= <- <- <-].
  apply sample_tests_spec in Hsample as (added & -> & Hsub & _ & Hmarked & Hbound).
  rewrite enumerate_snd in Hsub. simpl in *.
  assert (Hcands : NoDup cands).
  { rewrite Hperm. by apply NoDup_filter. }
  assert (Hin_cands : ∀ p, p ∈ cands →
            Z.of_nat (len p) = test_len ∧ p ∈ train_programs).
  { intros p Hp. rewrite Hperm in Hp. by apply list_elem_of_filter in Hp. }
  pose proof (unmarked_sublist marked [] cands) as Hback. simpl in Hback.
  set (back := omap (λ i, if bool_decide (i ∈ marked) then None else cands !! i)
                    (seq 0 (length cands))) in *.
  assert (Hothers : ∀ p, p ∈ others →
            Z.of_nat (len p) ≠ test_len ∧ p ∈ train_programs).
  { intros p Hp. by apply list_elem_of_filter in Hp. }
  split; [apply Hbound; lia|]. split; [by eapply sublist_NoDup|].
  split; [|split; [|split]].
  - intros p Hp. destruct (Hin_cands p) as [Hlen Htrain]; [by eapply elem_of_sublist|].
    split; [done|]. split; [done|].
    intros [Ho|Hb]%elem_of_app.
    + by destruct (Hothers p Ho).
    + destruct (Hmarked p Hp) as (i & Hi%elem_of_enumerate & Him).
      apply list_elem_of_omap in Hb as (j & _ & Hj).
      case_bool_decide as Hjm; [done|].
      assert (i = j) by by eapply NoDup_lookup. by subst j.
  - apply NoDup_app. split; [by apply NoDup_filter|]. split; [|by eapply sublist_NoDup].
    intros p Ho Hb. destruct (Hothers p Ho) as [Hlen _].
    destruct (Hin_cands p) as [Hlen' _]; [by eapply elem_of_sublist | done].
  - intros p [Ho|Hb]%elem_of_app; [by apply Hothers|].
    apply Hin_cands. by eapply elem_of_sublist.
  - by apply prefix_app_r.
Qed.

(** One round of test sampling over a pool of distinct programs: at most
    [num_test] test programs, distinct and all of the test length and
    from the pool; the pool that comes back holds distinct programs of the
    old pool, none of them a test program, and begins with the programs
    of other lengths in their order. *)
Theorem test_round_splits_pool g examples test_len train_programs tests pool g' :
  NoDup train_programs →
  test_round is_same num_test randbelow g examples test_len train_programs
    = Some (tests, pool, g') →
  Z.of_nat (length tests) ≤ Z.max 0 num_test
  ∧ NoDup tests
  ∧ (∀ p, p ∈ tests → Z.of_nat (len p) = test_len ∧ p ∈ train_programs ∧ p ∉ pool)
  ∧ NoDup pool ∧ pool ⊆ train_programs
  ∧ filter (λ x, Z.of_nat (length (statements x)) ≠ test_len) train_programs
      `prefix_of` pool.
Proof. apply test_round_spec. Qed.

(** Over all rounds, for a pool of distinct programs: every program of a
    test file has the length of that file, comes from the pool and is not
    in the training pool that is written; that pool holds distinct
    programs of the old pool, among them every program whose length is
    not a test length. *)
Theorem test_rounds_keep_train_and_test_apart g examples test_lens train_programs
    tests pool :
  NoDup train_programs →
  test_rounds is_same randbelow num_test g examples test_lens train_programs
    = Some (tests, pool) →
  (∀ l ps p, (l, ps) ∈ tests → p ∈ ps →
     Z.of_nat (len p) = l ∧ p ∈ train_programs ∧ p ∉ pool)
  ∧ NoDup pool ∧ pool ⊆ train_programs
  ∧ ∀ p, p ∈ train_programs → Z.of_nat (len p) ∉ test_lens → p ∈ pool.
Proof.
  revert g train_programs tests pool.
  induction test_lens as [|test_len rest IH]; intros g train_programs tests pool Hnd; simpl.
  - intros [= <- <-]. split; [|done].
    intros l ps p Hin. by apply elem_of_nil in Hin.
  - destruct (test_round _ _ _ g examples test_len train_programs)
      as [[[tests1 pool1] g1]|] eqn:Hround; simpl; [|done].
    apply test_round_spec in Hround as (_ & _ & Htests1 & Hnd1 & Hsub1 & Hpre1); [|done].
    destruct (test_rounds _ _ _ g1 examples rest pool1) as [[tests2 pool2]|] eqn:Hrest;
      simpl; [|done].
    intros [= <- <-].
    destruct (IH _ _ _ _ Hnd1 Hrest) as (Htests2 & Hnd2 & Hsub2 & Hkeep2).
    split; [|split; [done|split]].
    + intros l ps p [[= -> ->]|Hin]%elem_of_cons Hp.
      * destruct (Htests1 p Hp) as (Hlen & Htrain & Hout).
        split; [done|]. split; [done|]. intros Hp2. by apply Hout, Hsub2.
      * destruct (Htests2 l ps p Hin Hp) as (Hlen & Hpool & Hout).
        split; [done|]. split; [by apply Hsub1 | done].
    + intros p Hp. by apply Hsub1, Hsub2.
    + intros p Hp Hlen. apply Hkeep2.
      * eapply elem_of_prefix; [|exact Hpre1]. apply list_elem_of_filter. split; [|done].
        intros Heq. apply Hlen. unfold len. rewrite Heq. apply list_elem_of_here.
      * intros Hin. apply Hlen. by apply list_elem_of_further.
Qed.

(** A round raises no KeyError when every candidate of the test length has
    its examples in the corpus. *)
Theorem test_round_total g examples test_len train_programs :
  (∀ p, p ∈ train_programs → Z.of_nat (len p) = test_len → p ∈ dict_keys examples) →
  is_Some (test_round is_same num_test randbelow g examples test_len train_programs).
Proof.
  intros Hkeys. unfold test_round.
  set (same := filter (λ x, Z.of_nat (length (statements x)) = test_len) train_programs).
  pose proof (shuffle_from_Permutation randbelow (length same - 1) g same) as Hperm.
  unfold shuffle. destruct (shuffle_from randbelow (length same - 1) g same)
    as [cands g1]. simpl in Hperm.
  destruct (sample_tests_total examples cands (enumerate cands) [] ∅) as [[t m] ->]; [|done].
  intros i p Hin%elem_of_enumerate.
  assert (Hp : p ∈ same) by (rewrite <- Hperm; by eapply list_elem_of_lookup_2).
  apply list_elem_of_filter in Hp as [Hlen Hp]. by apply Hkeys.
Qed.
End Sampling.

Lemma test_round_splits_pool_witness :
  Z.of_nat (length [reverse_maximum; sort_maximum]) ≤ Z.max 0 3
  ∧ NoDup [reverse_maximum; sort_maximum]
  ∧ (∀ p, p ∈ [reverse_maximum; sort_maximum] →
       Z.of_nat (len p) = 2 ∧ p ∈ bucket ∧ p ∉ @nil Program)
  ∧ NoDup (@nil Program) ∧ @nil Program ⊆ bucket
  ∧ filter (λ x, Z.of_nat (length (statements x)) ≠ 2) bucket `prefix_of` @nil Program.
Proof.
  apply (test_round_splits_pool same_last top_draw 3 tt bucket_examples 2 bucket
           [reverse_maximum; sort_maximum] [] tt).
  - apply (bool_decide_unpack _). vm_compute. exact I.
  - vm_compute. reflexivity.
Defined.

Lemma test_rounds_keep_train_and_test_apart_witness :
  (∀ l ps p, (l, ps) ∈ [(2, [reverse_maximum; sort_maximum])] → p ∈ ps →
     Z.of_nat (len p) = l ∧ p ∈ head_program :: bucket ∧ p ∉ [head_program])
  ∧ NoDup [head_program] ∧ [head_program] ⊆ head_program :: bucket
  ∧ ∀ p, p ∈ head_program :: bucket → Z.of_nat (len p) ∉ [2] → p ∈ [head_program].
Proof.
  apply (test_rounds_keep_train_and_test_apart same_last top_draw 3 tt
           ((head_program, [7%nat]) :: bucket_examples) [2] (head_program :: bucket)).
  - apply (bool_decide_unpack _). vm_compute. exact I.
  - vm_compute. reflexivity.
Defined.

Lemma test_round_total_witness :
  is_Some (test_round same_last 3 top_draw tt bucket_examples 2 bucket).
Proof.
  apply (test_round_total same_last top_draw 3 tt bucket_examples 2 bucket).
  intros p Hp _. unfold bucket in Hp. unfold bucket_examples, dict_keys. simpl. exact Hp.
Defined.

(** ** The batch of one length *)

Section Batch.
Context {Example : Type}.
Context (get_input_output_examples : Program → option (list Example)).

Local Abbreviation worker := (gen_examples_worker get_input_output_examples).

(** The entry [gen_programs] keeps for a program, if any. *)
Local Abbreviation kept p :=
  (match worker p with
   | Some (e :: es) => Some (p, e :: es)
   | _ => None
   end).

Lemma omap_zip_self {A B C} (f : A → B) (g : A * B → option C) (l : list A) :
  omap g (zip l (f <$> l)) = omap (λ x, g (x, f x)) l.
Proof. induction l as [|x l IH]; [done|]. csimpl. by rewrite IH. Qed.

Lemma zip_self_keys {A B} (f : A → B) (l : list A) : dict_keys (zip l (f <$> l)) = l.
Proof. unfold dict_keys. apply fst_zip. by rewrite length_fmap. Qed.

Lemma omap_kept_keys (l : list Program) :
  dict_keys (omap (λ p, kept p) l) `sublist_of` l.
Proof.
  unfold dict_keys. induction l as [|p l IH]; [done|]. csimpl.
  destruct (worker p) as [[|e es]|]; csimpl; by constructor.
Qed.

Lemma collect_batch_closed (programs : list (list Program)) :
  collect_batch get_input_output_examples programs
  = omap (λ p, kept p) (remove_dups (mjoin programs)).
Proof.
  unfold collect_batch.
  rewrite (foldl_dict_set_fresh _ []).
  - apply (omap_zip_self worker).
  - simpl. rewrite zip_self_keys. apply NoDup_remove_dups.
Qed.

(** The batch handed to the merge has one entry per distinct generated
    program for which the oracle produced a non-empty example list, with
    that list, and no other entry. *)
Theorem collect_batch_keeps_programs_with_examples (programs : list (list Program)) :
  NoDup (dict_keys (collect_batch get_input_output_examples programs))
  ∧ ∀ p ex,
      dict_get p (collect_batch get_input_output_examples programs) = Some ex
      ↔ (∃ ps, ps ∈ programs ∧ p ∈ ps)
        ∧ get_input_output_examples p = Some ex ∧ ex ≠ [].
Proof.
  rewrite collect_batch_closed.
  assert (Hnd : NoDup (dict_keys (omap (λ p, kept p) (remove_dups (mjoin programs))))).
  { eapply sublist_NoDup; [apply NoDup_remove_dups | apply omap_kept_keys]. }
  split; [done|]. intros p ex. split.
  - intros Hin%dict_get_Some_elem_of.
    apply list_elem_of_omap in Hin as (q & Hq & Hkept).
    apply elem_of_remove_dups, list_elem_of_join in Hq.
    unfold gen_examples_worker in Hkept.
    destruct (get_input_output_examples q) as [[|e es]|] eqn:Horacle; try done.
    injection Hkept as <- <-. split; [|by rewrite Horacle].
    destruct Hq as (ps & Hps & Hq). by exists ps.
  - intros ((ps & Hps & Hp) & Horacle & Hne).
    apply elem_of_dict_get; [done|]. apply list_elem_of_omap. exists p. split.
    + apply elem_of_remove_dups, list_elem_of_join. by exists ps.
    + unfold gen_examples_worker. rewrite Horacle. by destruct ex.
Qed.
End Batch.

(** ** One process: the first signature takes the whole quota *)

Section OneProcessBatch.
Context {R Example : Type} (randbelow : R → nat → nat * R).
Context (program_len : Z) (LAMBDAS : list Function).
Context (get_input_output_examples : Program → option (list Example)).

(** Once the counter is at the quota every further task returns nothing. *)
Lemma pool_map_after_quota num_programs fuel sigs (st : state R) programs st' :
  num_programs < 2 ^ 31 → - 2 ^ 31 ≤ progress_counter st →
  num_programs ≤ progress_counter st →
  pool_map_one_process randbelow program_len LAMBDAS num_programs fuel sigs st
    = Some (programs, st') →
  Forall (λ res, res = []) programs.
Proof.
  intros Hq. revert st programs.
  induction sigs as [|sig sigs IH]; intros st programs Hlow Hmet; simpl.
  - intros [= <- <-]. constructor.
  - destruct (gen_program_worker _ _ _ _ fuel sig st) as [[res st1]|] eqn:Hrun;
      simpl; [|done].
    destruct (pool_map_one_process _ _ _ _ fuel sigs st1) as [[rest st2]|] eqn:Hrest;
      simpl; [|done].
    intros [= <- <-].
    destruct (worker_count _ _ _ _ _ _ _ _ _ Hq Hlow Hrun) as [Hc Hlen].
    constructor.
    + destruct res as [|r res]; [done|]. exfalso. cbn [length] in Hlen. lia.
    + eapply IH; [| |exact Hrest]; lia.
Qed.

(** Run by one process, [gen_programs] takes every program of its batch
    from the first signature, the single LIST input: the first task fills
    the whole quota and the others find the counter at the quota.  Each
    program of the batch is complete, of the target length, and comes with
    the non-empty examples of the oracle; there are at most
    [num_programs] of them. *)
Theorem one_process_batch_from_first_signature num_inputs num_programs fuel
    (st : state R) batch :
  1 ≤ num_inputs → 0 ≤ program_len → num_programs < 2 ^ 31 →
  gen_programs_one_process randbelow program_len LAMBDAS get_input_output_examples
    num_inputs num_programs fuel st = Some batch →
  Z.of_nat (length batch) ≤ Z.max 0 num_programs
  ∧ ∀ p ex, (p, ex) ∈ batch →
      input_types p = [LIST] ∧ Z.of_nat (len p) = program_len
      ∧ get_unused_indices p = ∅
      ∧ get_input_output_examples p = Some ex ∧ ex ≠ [].
Proof.
  intros Hn Hlen Hq. unfold gen_programs_one_process.
  assert (Hsigs : ∃ sigs, get_input_type_combinations num_inputs = [LIST] :: sigs).
  { unfold get_input_type_combinations. rewrite (seqZ_cons 1 num_inputs) by lia.
    rewrite bind_cons. rewrite (seqZ_cons 1 1) by lia. rewrite bind_cons. simpl.
    eauto. }
  destruct Hsigs as [sigs ->]. simpl.
  set (st0 := {| ALL_FUNCTIONS := ALL_FUNCTIONS st; rng := rng st; progress_counter := 0 |}).
  destruct (gen_program_worker _ _ _ _ fuel [LIST] st0) as [[res st1]|] eqn:Hrun;
    simpl; [|done].
  destruct (pool_map_one_process _ _ _ _ fuel sigs st1) as [[rest st2]|] eqn:Hrest;
    simpl; [|done].
  intros [= <-].
  assert (Hlow : - 2 ^ 31 ≤ progress_counter st0) by (unfold st0; simpl; lia).
  destruct (worker_count _ _ _ _ _ _ _ _ _ Hq Hlow Hrun) as [Hc Hcount].
  unfold st0 in Hc, Hcount. simpl in Hc, Hcount.
  assert (Hempty : Forall (λ r, r = []) rest).
  { eapply pool_map_after_quota; [exact Hq| | |exact Hrest]; lia. }
  assert (Hjoin : mjoin (res :: rest) = res).
  { simpl. clear -Hempty. induction Hempty as [|r rest -> _ IH]; simpl in *.
    - by rewrite app_nil_r.
    - exact IH. }
  rewrite collect_batch_closed, Hjoin. split.
  - assert (Hle : (length (omap (λ p, match gen_examples_worker get_input_output_examples p
                                        with
                                        | Some (e :: es) => Some (p, e :: es)
                                        | _ => None
                                        end) (remove_dups res))
                   ≤ length res)%nat); [|lia].
    assert (Hdups : (length (remove_dups res) ≤ length res)%nat).
    { apply submseteq_length, NoDup_submseteq; [apply NoDup_remove_dups|].
      intros x Hx. by apply elem_of_remove_dups. }
    etrans; [|exact Hdups].
    generalize (remove_dups res). intros l.
    induction l as [|p l IH]; [done|]. csimpl.
    destruct (gen_examples_worker get_input_output_examples p) as [[|e es]|]; simpl; lia.
  - intros p ex (q & Hq' & Hkept)%list_elem_of_omap.
    rewrite elem_of_remove_dups in Hq'.
    unfold gen_examples_worker in Hkept.
    destruct (get_input_output_examples q) as [[|e es]|] eqn:Horacle; try done.
    injection Hkept as <- <-.
    destruct (worker_programs_complete _ _ _ _ _ _ _ _ _ _ Hrun Hq') as [Hsig Hunused].
    split; [done|]. split; [by eapply worker_programs_have_target_length|].
    split; [done|]. by rewrite Horacle.
Qed.
End OneProcessBatch.

Lemma one_process_batch_from_first_signature_witness :
  Z.of_nat (length [(head_program, [1%nat])]) ≤ Z.max 0 1
  ∧ ∀ p ex, (p, ex) ∈ [(head_program, [1%nat])] →
      input_types p = [LIST] ∧ Z.of_nat (len p) = 1
      ∧ get_unused_indices p = ∅
      ∧ toy_oracle p = Some ex ∧ ex ≠ [].
Proof.
  apply (one_process_batch_from_first_signature top_draw 1 [] toy_oracle 2 1 2
           (start_state [HEAD])).
  - lia.
  - lia.
  - lia.
  - vm_compute. reflexivity.
Defined.

Section TargetLength.
Context {R : Type} (randbelow : R → nat → nat * R).
Context (num_programs program_len : Z) (LAMBDAS : list Function).

(** For a target length that is not negative, every program
    [gen_program_worker] returns has exactly that many statements. *)
Theorem accepted_programs_have_target_length fuel input_types (st : state R) res st' p :
  0 ≤ program_len →
  gen_program_worker randbelow num_programs program_len LAMBDAS fuel input_types st
    = Some (res, st') →
  p ∈ res → Z.of_nat (len p) = program_len.
Proof. apply worker_programs_have_target_length. Qed.
End TargetLength.

Lemma accepted_programs_have_target_length_witness :
  Z.of_nat (len {| input_types := [LIST];
                   statements := [stmt REVERSE 0; stmt HEAD 1] |}) = 2.
Proof.
  eapply (accepted_programs_have_target_length zero_draw 2 2 [] 5 [LIST]
            (start_state [SORT; HEAD; MAXIMUM; REVERSE])).
  - lia.
  - vm_compute. reflexivity.
  - apply list_elem_of_here.
Defined.
